(** * Single-source shortest paths: binary heap against radix heap

    A shallow embedding of [src/main.cpp]: the adjacency-list graph, the
    [std::priority_queue] baseline, the [RadixHeap] class, the two
    shortest-path routines [dijkstra] and [breaking_sorting_barrier_sssp],
    [verify_results] and the driver, followed by the properties proved
    about them.

    Conventions.
    - [std::uint64_t] values are integers of [Z] in [0, 2^64); the one
      addition of the program, [d + edge.weight], wraps and is written [add64].
    - [int] node identifiers are integers of [Z]; the program never does
      arithmetic on them, it only uses them as indices.
    - A [std::vector] is a list whose head is element 0; [push_back] and
      [emplace_back] append at the end.
    - A C++ call that can throw, or whose behaviour is undefined, returns an
      [outcome]; loops whose termination is not structural take a fuel. *)

From Stdlib Require Import ZArith Lia Ascii String.
From stdpp Require Import base tactics option list numbers strings pretty sorting.

Local Open Scope Z_scope.

(** ** Outcomes of C++ calls *)

Inductive exception : Type :=
| logic_error (what : string)
| runtime_error (what : string).

Inductive outcome (A : Type) : Type :=
| Ok (a : A)
| Throw (e : exception)
| Undefined
| OutOfFuel.

Arguments Ok {A} a.
Arguments Throw {A} e.
Arguments Undefined {A}.
Arguments OutOfFuel {A}.

#[global] Instance outcome_ret : MRet outcome := @Ok.

#[global] Instance outcome_bind : MBind outcome := λ A B f m,
  match m with
  | Ok a => f a
  | Throw e => Throw e
  | Undefined => Undefined
  | OutOfFuel => OutOfFuel
  end.

#[global] Instance outcome_fmap : FMap outcome := λ A B f m,
  match m with
  | Ok a => Ok (f a)
  | Throw e => Throw e
  | Undefined => Undefined
  | OutOfFuel => OutOfFuel
  end.

(** ** Machine integers and vectors *)

Definition two64 : Z := 18446744073709551616.

(** [std::numeric_limits<std::uint64_t>::max()] *)
Definition UINT64_MAX : Z := two64 - 1.

Definition is_uint64 (x : Z) : Prop := 0 ≤ x < two64.

(** Unsigned 64-bit addition. *)
Definition add64 (a b : Z) : Z := (a + b) `mod` two64.

(** The element of index [i], if [i] is an index of the vector. *)
Definition zlookup {A} (v : list A) (i : Z) : option A :=
  if bool_decide (0 ≤ i) then v !! Z.to_nat i else None.

(** [v[i]] for reading: an index outside the vector is undefined behaviour. *)
Definition vec_get {A} (v : list A) (i : Z) : outcome A :=
  match zlookup v i with
  | Some x => Ok x
  | None => Undefined
  end.

(** [v[i] = x] *)
Definition vec_set {A} (v : list A) (i : Z) (x : A) : list A :=
  <[Z.to_nat i := x]> v.

(** [v.back()] and [v.pop_back()] *)
Definition vec_back {A} (v : list A) : option A := last v.
Definition vec_pop_back {A} (v : list A) : list A := removelast v.

(** [__builtin_clzll]: the number of leading zero bits of a 64-bit word,
    counted from bit 63 downwards. *)
Fixpoint clz_from (n : nat) (x : Z) : Z :=
  match n with
  | O => 0
  | S m => if Z.testbit x (Z.of_nat m) then 0 else 1 + clz_from m x
  end.

Definition clzll (x : Z) : Z := clz_from 64 x.

(** ** Graph *)

Record Edge : Type := mkEdge { to : Z; weight : Z }.

Abbreviation Graph := (list (list Edge)).

Record GraphLoadResult : Type := mkLoad { graph : Graph; node_count : Z }.

(** The default-constructed [GraphLoadResult] of [return {};]. *)
Definition GraphLoadResult_default : GraphLoadResult :=
  {| graph := []; node_count := 0 |}.

Section ReadGraph.
(** [iss >> from >> to >> w_input] of the standard stream library: the
    three numbers of a line, or [None] when the extraction fails. *)
Variable extract : string → option (Z * Z * Z).

(** [line.empty() || line[0] == '#'] *)
Definition skipped (line : string) : bool :=
  match line with
  | EmptyString => true
  | String c _ => bool_decide (c = "#"%char)
  end.

(** The [while (std::getline(in, line))] loop: the edges read so far and
    [max_node]. *)
Fixpoint read_lines (lines : list string) (edges : list (Z * Z * Z))
    (max_node : Z) : outcome (list (Z * Z * Z) * Z) :=
  match lines with
  | [] => Ok (edges, max_node)
  | line :: rest =>
      if skipped line then read_lines rest edges max_node
      else
        match extract line with
        | None => Throw (runtime_error ("Invalid line in input file: " +:+ line))
        | Some (from, to_, w_input) =>
            if bool_decide (from < 0 ∨ to_ < 0) then
              Throw (runtime_error ("Node ids must be non-negative: " +:+ line))
            else if bool_decide (w_input < 0) then
              Throw (runtime_error ("Edge weights must be non-negative: " +:+ line))
            else
              read_lines rest (edges ++ [(from, to_, w_input)])
                (Z.max (Z.max max_node from) to_)
        end
  end.

(** [graph[from].push_back({to, w})] for every edge read. *)
Definition add_edge (g : Graph) (e : Z * Z * Z) : Graph :=
  let '(from, to_, w) := e in
  alter (λ es, es ++ [mkEdge to_ w]) (Z.to_nat from) g.

Definition build_graph (n : Z) (edges : list (Z * Z * Z)) : Graph :=
  fold_left add_edge edges (replicate (Z.to_nat n) []).

(** [file] is the list of the lines of the input file, [None] when the
    file cannot be opened. *)
Definition read_graph_from_file (path : string) (file : option (list string))
    : outcome GraphLoadResult :=
  match file with
  | None => Throw (runtime_error ("Failed to open input file: " +:+ path))
  | Some lines =>
      '(edges, max_node) ← read_lines lines [] (-1);
      if bool_decide (max_node < 0) then Ok GraphLoadResult_default
      else Ok {| graph := build_graph (max_node + 1) edges;
                 node_count := max_node + 1 |}
  end.
End ReadGraph.

(** ** The binary heap of the baseline

    [std::priority_queue<P, std::vector<P>, std::greater<P>>] is a container
    of the standard library. It is modelled by its contract: [top] is the
    least stored pair in the lexicographic order of [std::pair], [pop]
    removes one occurrence of it. *)

Module BinaryHeap.
Definition t : Type := list (Z * Z).

(** [operator<] of [std::pair<std::uint64_t, int>] *)
Definition pair_lt (a b : Z * Z) : bool :=
  (a.1 <? b.1) || ((a.1 =? b.1) && (a.2 <? b.2)).

Fixpoint least (x : Z * Z) (l : list (Z * Z)) : Z * Z :=
  match l with
  | [] => x
  | y :: l' => least (if pair_lt y x then y else x) l'
  end.

Fixpoint remove_one (x : Z * Z) (l : list (Z * Z)) : list (Z * Z) :=
  match l with
  | [] => []
  | y :: l' => if decide (y = x) then l' else y :: remove_one x l'
  end.

Definition new : t := [].
Definition empty (q : t) : bool := bool_decide (q = []).
Definition push (key value : Z) (q : t) : t := q ++ [(key, value)].

(** [pq.top()] followed by [pq.pop()]; both are undefined on an empty
    queue. *)
Definition pop (q : t) : outcome ((Z * Z) * t) :=
  match q with
  | [] => Undefined
  | x :: l => let m := least x l in Ok (m, remove_one m q)
  end.
End BinaryHeap.

(** ** The radix heap *)

Module RadixHeap.
(** [sz] is a [std::size_t] that counts the stored pairs; their number
    is bounded by the address space, so its increment and decrement are
    written without wrap-around. *)
Record t : Type := mk {
  buckets : list (list (Z * Z));
  last : Z;
  sz : Z
}.

Definition new : t := {| buckets := replicate 65 []; last := 0; sz := 0 |}.

Definition empty (h : t) : bool := bool_decide (sz h = 0).
Definition size (h : t) : Z := sz h.

Definition bucket_index (diff : Z) : Z :=
  if bool_decide (diff = 0) then 0 else 64 - clzll diff.

(** [bucket_index] is at most 64, an index of the 65 buckets the
    constructor allocates. *)
Definition push (key value : Z) (h : t) : t :=
  let idx := bucket_index (Z.lxor key (last h)) in
  {| buckets := alter (λ b, b ++ [(key, value)]) (Z.to_nat idx) (buckets h);
     last := last h;
     sz := sz h + 1 |}.

(** [while (i < buckets.size() && buckets[i].empty()) ++i], on the part
    of the vector that starts at index [i]. *)
Fixpoint first_nonempty (i : nat) (bs : list (list (Z * Z))) : nat :=
  match bs with
  | [] => i
  | [] :: bs' => first_nonempty (S i) bs'
  | _ :: _ => i
  end.

(** The least key of a bucket, starting from [buckets[i][0].first]. *)
Definition min_key (new_last : Z) (items : list (Z * Z)) : Z :=
  fold_left (λ m item, if bool_decide (item.1 < m) then item.1 else m)
    items new_last.

(** The second loop of [relocate]. It iterates over [buckets[i]] while it
    appends to [buckets[idx]]: appending to the vector under iteration
    ([idx = i]) is undefined behaviour. *)
Fixpoint redistribute (i : nat) (new_last : Z) (items : list (Z * Z))
    (bs : list (list (Z * Z))) : outcome (list (list (Z * Z))) :=
  match items with
  | [] => Ok bs
  | item :: rest =>
      let idx := Z.to_nat (bucket_index (Z.lxor item.1 new_last)) in
      if decide (idx = i) then Undefined
      else redistribute i new_last rest (alter (λ b, b ++ [item]) idx bs)
  end.

Definition relocate (h : t) : outcome t :=
  let i := first_nonempty 1 (drop 1 (buckets h)) in
  if decide (i = length (buckets h)) then
    Throw (logic_error "RadixHeap is empty")
  else
    match buckets h !! i with
    | Some ((item0 :: _) as items) =>
        let new_last := min_key item0.1 items in
        bs ← redistribute i new_last items (buckets h);
        Ok {| buckets := <[i := []]> bs; last := new_last; sz := sz h |}
    | _ => Undefined
    end.

(** [buckets[0].back()] on an empty bucket is undefined behaviour. *)
Definition take_back (h : t) : outcome ((Z * Z) * t) :=
  match buckets h !! 0%nat with
  | Some b0 =>
      match vec_back b0 with
      | Some res =>
          Ok (res, {| buckets := <[0%nat := vec_pop_back b0]> (buckets h);
                      last := last h;
                      sz := sz h - 1 |})
      | None => Undefined
      end
  | None => Undefined
  end.

Definition bucket0_empty (h : t) : bool :=
  match buckets h !! 0%nat with
  | Some [] => true
  | _ => false
  end.

Definition pop (h : t) : outcome ((Z * Z) * t) :=
  h1 ← (if bucket0_empty h then relocate h else Ok h);
  take_back h1.
End RadixHeap.

(** ** The relaxation loop

    [dijkstra] and [breaking_sorting_barrier_sssp] have the same body and
    differ in the queue they declare. The body is written once over the
    queue operations it calls. It keeps a log of these calls, each with the
    queue it is made on, most recent call first. *)

Class PriorityQueue (Q : Type) : Type := {
  pq_new : Q;
  pq_empty : Q → bool;
  pq_push : Z → Z → Q → Q;
  pq_pop : Q → outcome ((Z * Z) * Q)
}.

#[global] Instance binary_heap_queue : PriorityQueue BinaryHeap.t := {|
  pq_new := BinaryHeap.new;
  pq_empty := BinaryHeap.empty;
  pq_push := BinaryHeap.push;
  pq_pop := BinaryHeap.pop
|}.

#[global] Instance radix_heap_queue : PriorityQueue RadixHeap.t := {|
  pq_new := RadixHeap.new;
  pq_empty := RadixHeap.empty;
  pq_push := RadixHeap.push;
  pq_pop := RadixHeap.pop
|}.

Inductive pq_call (Q : Type) : Type :=
| CallPush (q : Q) (key value : Z)
| CallPop (q : Q).

Arguments CallPush {Q} q key value.
Arguments CallPop {Q} q.

Section Relaxation.
Context {Q : Type} `{PriorityQueue Q}.

Record sssp_state : Type := mkState {
  st_dist : list Z;
  st_pq : Q;
  st_log : list (pq_call Q)
}.

(** [for (const auto& edge : graph[u])] *)
Fixpoint relax_edges (d : Z) (edges : list Edge) (st : sssp_state)
    : outcome sssp_state :=
  match edges with
  | [] => Ok st
  | edge :: rest =>
      let nd := add64 d (weight edge) in
      dv ← vec_get (st_dist st) (to edge);
      if bool_decide (nd < dv) then
        relax_edges d rest
          {| st_dist := vec_set (st_dist st) (to edge) nd;
             st_pq := pq_push nd (to edge) (st_pq st);
             st_log := CallPush (st_pq st) nd (to edge) :: st_log st |}
      else relax_edges d rest st
  end.

(** [while (!pq.empty())]; each unit of fuel pays for one test of the
    loop condition. *)
Fixpoint sssp_loop (fuel : nat) (graph : Graph) (st : sssp_state)
    : outcome sssp_state :=
  match fuel with
  | O => OutOfFuel
  | S fuel' =>
      if pq_empty (st_pq st) then Ok st
      else
        '((d, u), q') ← pq_pop (st_pq st);
        let st1 := {| st_dist := st_dist st; st_pq := q';
                      st_log := CallPop (st_pq st) :: st_log st |} in
        du ← vec_get (st_dist st) u;
        if bool_decide (d ≠ du) then sssp_loop fuel' graph st1
        else
          edges ← vec_get graph u;
          st2 ← relax_edges d edges st1;
          sssp_loop fuel' graph st2
  end.

(** The statements before the loop: [dist[source] = 0] on a source
    outside the vector is undefined behaviour. *)
Definition sssp_init (graph : Graph) (source : Z) : outcome sssp_state :=
  let dist := replicate (length graph) UINT64_MAX in
  _ ← vec_get dist source;
  Ok {| st_dist := vec_set dist source 0;
        st_pq := pq_push 0 source pq_new;
        st_log := [CallPush pq_new 0 source] |}.

Definition sssp_run (fuel : nat) (graph : Graph) (source : Z)
    : outcome sssp_state :=
  st ← sssp_init graph source;
  sssp_loop fuel graph st.
End Relaxation.

Arguments sssp_state Q : clear implicits.

Definition dijkstra (fuel : nat) (graph : Graph) (source : Z)
    : outcome (list Z) :=
  st_dist <$> sssp_run (Q:=BinaryHeap.t) fuel graph source.

Definition breaking_sorting_barrier_sssp (fuel : nat) (graph : Graph)
    (source : Z) : outcome (list Z) :=
  st_dist <$> sssp_run (Q:=RadixHeap.t) fuel graph source.

(** The calls made on the radix heap during a run, oldest first. *)
Definition radix_calls (fuel : nat) (graph : Graph) (source : Z)
    : outcome (list (pq_call RadixHeap.t)) :=
  (λ st, reverse (st_log st)) <$> sssp_run (Q:=RadixHeap.t) fuel graph source.

(** ** The cross-check and the driver *)

Definition size_mismatch_msg : string := "Result vectors have different sizes".

(** [oss << "Mismatch at node " << i << ": " << a[i] << " vs " << b[i]] *)
Definition mismatch_msg (i : nat) (x y : Z) : string :=
  "Mismatch at node " +:+ pretty i +:+ ": " +:+ pretty x +:+ " vs " +:+ pretty y.

Fixpoint verify_from (i : nat) (a b : list Z) : outcome unit :=
  match a, b with
  | x :: a', y :: b' =>
      if bool_decide (x ≠ y) then Throw (runtime_error (mismatch_msg i x y))
      else verify_from (S i) a' b'
  | _, _ => Ok ()
  end.

Definition verify_results (a b : list Z) : outcome unit :=
  if bool_decide (length a ≠ length b) then
    Throw (runtime_error size_mismatch_msg)
  else verify_from 0 a b.

(** [time_algorithm] without its clock and its printing: [fn] is run [runs]
    times and the distances of the first run are returned. *)
Fixpoint time_algorithm_loop (fn : outcome (list Z)) (i runs : nat)
    (dist : list Z) : outcome (list Z) :=
  match runs with
  | O => Ok dist
  | S runs' =>
      current ← fn;
      time_algorithm_loop fn (S i) runs'
        (match i with O => current | S _ => dist end)
  end.

Definition time_algorithm (graph : Graph) (source : Z)
    (fn : Graph → Z → outcome (list Z)) (runs : Z) : outcome (list Z) :=
  time_algorithm_loop (fn graph source) 0 (Z.to_nat runs) [].

Definition empty_graph_msg : string :=
  "Input graph is empty; provide at least one edge.".

Section Main.
Variable extract : string → option (Z * Z * Z).

(** The body of the [try] block of [main], after the command line has
    been decoded into [input_path], [source] and [runs] (at least 1). *)
Definition main_try (fuel : nat) (input_path : string)
    (file : option (list string)) (source runs : Z) : outcome unit :=
  loaded ← read_graph_from_file extract input_path file;
  if bool_decide (graph loaded = []) then
    Throw (runtime_error empty_graph_msg)
  else if bool_decide (source < 0 ∨ node_count loaded ≤ source) then
    Throw (runtime_error "Source node is out of range for the graph")
  else
    dijkstra_result ← time_algorithm (graph loaded) source (dijkstra fuel) runs;
    breaking_result ← time_algorithm (graph loaded) source
                        (breaking_sorting_barrier_sssp fuel) runs;
    verify_results dijkstra_result breaking_result.

(** The exit status: [catch (const std::exception&)] turns every
    exception of the block into status 1. *)
Definition main (fuel : nat) (input_path : string)
    (file : option (list string)) (source runs : Z) : outcome Z :=
  match main_try fuel input_path file source runs with
  | Ok _ => Ok 0
  | Throw _ => Ok 1
  | Undefined => Undefined
  | OutOfFuel => OutOfFuel
  end.
End Main.

Section CommandLine.
(** [std::stoi] of the standard library: the integer a string starts with,
    or the exception it throws. *)
Variable stoi : string → outcome Z.
Variable extract : string → option (Z * Z * Z).
(** The lines of the file at a path, [None] when it cannot be opened. *)
Variable open_file : string → option (list string).

(** [main] from its argument vector, [argv[0]] being the program name.
    With fewer than three arguments it prints the usage and returns 1. The
    two calls of [std::stoi] are outside the [try] block: an exception of
    theirs leaves [main]. *)
Definition main_argv (fuel : nat) (argv : list string) : outcome Z :=
  match argv with
  | _ :: input_path :: source_arg :: rest =>
      source ← stoi source_arg;
      runs ← match rest with
             | runs_arg :: _ => r ← stoi runs_arg; Ok (Z.max 1 r)
             | [] => Ok 1
             end;
      main extract fuel input_path (open_file input_path) source runs
  | _ => Ok 1
  end.
End CommandLine.

(** * Specification vocabulary *)

(** ** Radix heap: stored entries and invariants *)

(** All stored pairs, bucket after bucket. *)
Definition entries (h : RadixHeap.t) : list (Z * Z) :=
  concat (RadixHeap.buckets h).

(** The bucket invariant: a stored pair with key [k] is in bucket
    [bucket_index (k XOR last)]. *)
Definition bucket_inv (h : RadixHeap.t) : Prop :=
  ∀ (i : nat) b e,
    RadixHeap.buckets h !! i = Some b → e ∈ b →
    RadixHeap.bucket_index (Z.lxor e.1 (RadixHeap.last h)) = Z.of_nat i.

(** The shape the constructor establishes: 65 buckets, a counter equal to
    the number of stored pairs, 64-bit keys and watermark. *)
Definition heap_wf (h : RadixHeap.t) : Prop :=
  length (RadixHeap.buckets h) = 65%nat ∧
  RadixHeap.sz h = Z.of_nat (length (entries h)) ∧
  is_uint64 (RadixHeap.last h) ∧
  Forall (λ e, is_uint64 e.1) (entries h).

(** No stored key is below the watermark. *)
Definition keys_above_last (h : RadixHeap.t) : Prop :=
  Forall (λ e, RadixHeap.last h ≤ e.1) (entries h).

(** What the relaxation loop keeps of the radix heap. *)
Definition radix_inv (h : RadixHeap.t) : Prop :=
  heap_wf h ∧ bucket_inv h ∧ keys_above_last h.

(** The bucket [relocate] moves [item] to under the watermark [new_last]. *)
Definition target (new_last : Z) (item : Z * Z) : nat :=
  Z.to_nat (RadixHeap.bucket_index (Z.lxor item.1 new_last)).

(** Sequences of public operations on a radix heap. *)
Inductive heap_op : Type :=
| OpPush (key value : Z)
| OpPop.

(** The heaps a sequence of operations goes through: the heap after every
    [push], after every [relocate] that a [pop] invokes and after every
    [pop]. The sequence stops at the first operation that does not return. *)
Fixpoint run_ops (ops : list heap_op) (h : RadixHeap.t) : list RadixHeap.t :=
  match ops with
  | [] => []
  | OpPush key value :: rest =>
      let h' := RadixHeap.push key value h in h' :: run_ops rest h'
  | OpPop :: rest =>
      if RadixHeap.bucket0_empty h then
        match RadixHeap.relocate h with
        | Ok h1 =>
            h1 :: match RadixHeap.take_back h1 with
                  | Ok (_, h2) => h2 :: run_ops rest h2
                  | _ => []
                  end
        | _ => []
        end
      else
        match RadixHeap.take_back h with
        | Ok (_, h2) => h2 :: run_ops rest h2
        | _ => []
        end
  end.

(** The precondition of [push] along a sequence of operations: every
    pushed key is a 64-bit value not below the watermark at the time of the
    call. *)
Fixpoint monotone_pushes (ops : list heap_op) (h : RadixHeap.t) : Prop :=
  match ops with
  | [] => True
  | OpPush key value :: rest =>
      is_uint64 key ∧ RadixHeap.last h ≤ key ∧
      monotone_pushes rest (RadixHeap.push key value h)
  | OpPop :: rest =>
      match RadixHeap.pop h with
      | Ok (_, h') => monotone_pushes rest h'
      | _ => True
      end
  end.

(** [n] calls of [pop], with the pairs they return in order. *)
Fixpoint pop_n (n : nat) (h : RadixHeap.t)
    : outcome (list (Z * Z) * RadixHeap.t) :=
  match n with
  | O => Ok ([], h)
  | S n' =>
      '(res, h1) ← RadixHeap.pop h;
      '(l, h2) ← pop_n n' h1;
      Ok (res :: l, h2)
  end.

(** ** Calls on the radix heap during a run *)


(** A [pop] that invokes [relocate]. *)
Definition relocates (c : pq_call RadixHeap.t) : bool :=
  match c with
  | CallPush _ _ _ => false
  | CallPop q => RadixHeap.bucket0_empty q
  end.

(** A call of [pop]. *)
Definition is_pop (c : pq_call RadixHeap.t) : bool :=
  match c with
  | CallPush _ _ _ => false
  | CallPop _ => true
  end.

(** A [push] whose key equals the watermark. *)
Definition pushes_at_last (c : pq_call RadixHeap.t) : bool :=
  match c with
  | CallPush q key _ => bool_decide (key = RadixHeap.last q)
  | CallPop _ => true
  end.

(** ** Graphs and shortest-path certificates *)

(** Every edge points to a node of the graph and carries a 64-bit weight. *)
Definition wf_graph (g : Graph) : Prop :=
  ∀ u es e, zlookup g u = Some es → e ∈ es →
    0 ≤ to e < Z.of_nat (length g) ∧ is_uint64 (weight e).

Definition valid_source (g : Graph) (s : Z) : Prop :=
  0 ≤ s < Z.of_nat (length g).

Definition out_weight (es : list Edge) : Z :=
  foldr (λ e acc, weight e + acc) 0 es.

Definition out_degree (es : list Edge) : Z := Z.of_nat (length es).

(** The sum of [f] over the adjacency lists of all nodes, and over those
    of the nodes listed in [D]. *)
Definition graph_sum (f : list Edge → Z) (g : Graph) : Z :=
  foldr (λ es acc, f es + acc) 0 g.

Definition nodes_sum (f : list Edge → Z) (g : Graph) (D : list Z) : Z :=
  foldr (λ u acc, f (default [] (zlookup g u)) + acc) 0 D.

(** The sum of all edge weights of the graph. *)
Definition total_weight (g : Graph) : Z := graph_sum out_weight g.

Definition edge_count (g : Graph) : nat :=
  foldr (λ es acc, (length es + acc)%nat) 0%nat g.

(** The loop of [read_graph_from_file]: the edges read so far lie below
    [max_node], and [max_node] is non-negative only once an edge has been
    read. *)
Definition read_inv (edges : list (Z * Z * Z)) (m : Z) : Prop :=
  Forall (λ e : Z * Z * Z, 0 ≤ e.1.1 ≤ m) edges ∧ (0 ≤ m → edges ≠ []).

(** [walk g s v d]: there is a walk from [s] to [v] of weight [d], the
    weight being the sum of its edge weights without wrap-around. *)
Inductive walk (g : Graph) (s : Z) : Z → Z → Prop :=
| walk_here : walk g s s 0
| walk_step u d es e :
    walk g s u d → zlookup g u = Some es → e ∈ es →
    walk g s (to e) (d + weight e).

(** A distance vector is a shortest-path vector of [g] from [s] when the
    source is at distance 0, every finite entry is the weight of a walk
    from the source, and no edge out of a reached node can still be
    relaxed. *)
Definition shortest_distances (g : Graph) (s : Z) (dist : list Z) : Prop :=
  length dist = length g ∧
  Forall (λ d, 0 ≤ d ≤ UINT64_MAX) dist ∧
  zlookup dist s = Some 0 ∧
  (∀ v dv, zlookup dist v = Some dv → dv < UINT64_MAX → walk g s v dv) ∧
  (∀ u du es e, zlookup dist u = Some du → du < UINT64_MAX →
     zlookup g u = Some es → e ∈ es →
     ∃ dv, zlookup dist (to e) = Some dv ∧ dv ≤ du + weight e).

(** An edge out of [u] that can no longer be relaxed. *)
Definition tight (dist : list Z) (u : Z) (e : Edge) : Prop :=
  ∃ du dv, zlookup dist u = Some du ∧ zlookup dist (to e) = Some dv ∧
           dv ≤ du + weight e.

(** All edges out of the nodes of [D] are tight. *)
Definition relaxed (g : Graph) (dist : list Z) (D : list Z) : Prop :=
  ∀ u es e, u ∈ D → zlookup g u = Some es → e ∈ es → tight dist u e.

(** ** The contract of a priority queue

    What the relaxation loop relies on: a queue stands for the list of its
    pairs; [pop] removes and returns a pair of least key; [push] may
    require its key not to be below a bound [pq_low], which a [pop] leaves
    at most at the key it returns. *)
Class PriorityQueueSpec (Q : Type) `{PriorityQueue Q} : Type := {
  pq_inv : Q → Prop;
  pq_elems : Q → list (Z * Z);
  pq_low : Q → Z;
  pq_new_inv : pq_inv pq_new;
  pq_new_elems : pq_elems pq_new = [];
  pq_new_low : pq_low pq_new ≤ 0;
  pq_empty_elems q : pq_inv q → pq_empty q = true ↔ pq_elems q = [];
  pq_push_spec q key value :
    pq_inv q → is_uint64 key → pq_low q ≤ key →
    pq_inv (pq_push key value q) ∧
    pq_elems (pq_push key value q) ≡ₚ (key, value) :: pq_elems q ∧
    pq_low (pq_push key value q) = pq_low q;
  pq_pop_spec q :
    pq_inv q → pq_elems q ≠ [] →
    Forall (λ e, pq_low q ≤ e.1) (pq_elems q) →
    ∃ res q',
      pq_pop q = Ok (res, q') ∧ pq_inv q' ∧
      pq_elems q ≡ₚ res :: pq_elems q' ∧
      Forall (λ e, res.1 ≤ e.1) (pq_elems q) ∧
      pq_low q' ≤ res.1
}.

Section Invariant.
Context {Q : Type} `{PriorityQueueSpec Q}.

(** A [push] whose key is not below the bound of the queue. *)
Definition push_above_low (c : pq_call Q) : Prop :=
  match c with
  | CallPush q key _ => pq_low q ≤ key
  | CallPop _ => True
  end.

(** The invariant of the [while] loop. [L] is the key of the last pair
    popped, [D] lists the nodes whose edges have been relaxed. *)
Record sssp_inv (g : Graph) (s : Z) (L : Z) (D : list Z)
    (st : sssp_state Q) : Prop := {
  inv_pq : pq_inv (st_pq st);
  inv_len : length (st_dist st) = length g;
  inv_range : Forall (λ d, 0 ≤ d ≤ UINT64_MAX) (st_dist st);
  inv_source : zlookup (st_dist st) s = Some 0;
  inv_low : pq_low (st_pq st) ≤ L;
  inv_L : 0 ≤ L;
  inv_elems : ∀ k v, (k, v) ∈ pq_elems (st_pq st) →
    L ≤ k < UINT64_MAX ∧ ∃ dv, zlookup (st_dist st) v = Some dv ∧ dv ≤ k;
  inv_nodup : NoDup (pq_elems (st_pq st));
  inv_done_nodup : NoDup D;
  inv_done : ∀ u, u ∈ D →
    ∃ du, zlookup (st_dist st) u = Some du ∧ du ≤ L ∧
          (du, u) ∉ pq_elems (st_pq st);
  inv_reached : ∀ v dv,
    zlookup (st_dist st) v = Some dv → dv < UINT64_MAX →
    (v ∈ D ∨ (dv, v) ∈ pq_elems (st_pq st)) ∧
    dv ≤ nodes_sum out_weight g D ∧ walk g s v dv;
  inv_log : Forall push_above_low (st_log st)
}.
End Invariant.

(** ** The reports of [verify_results] *)

(** [verify_results a b] reports index [i] as the first mismatch. *)
Definition reports_first_mismatch (a b : list Z) (i : nat) (x y : Z) : Prop :=
  verify_results a b = Throw (runtime_error (mismatch_msg i x y)) ∧
  a !! i = Some x ∧ b !! i = Some y ∧ x ≠ y ∧
  ∀ j, (j < i)%nat → a !! j = b !! j.

(** ** Further vocabulary *)

(** [push] of every pair of a list, in order. *)
Definition push_all (l : list (Z * Z)) (h : RadixHeap.t) : RadixHeap.t :=
  fold_left (λ h e, RadixHeap.push e.1 e.2 h) l h.

(** The adjacency list of node [u] that an edge list gives: the targets
    and weights of the edges leaving [u], in the order of the list. *)
Definition adjacency (edges : list (Z * Z * Z)) (u : Z) : list Edge :=
  (λ e : Z * Z * Z, mkEdge e.1.2 e.2) <$> filter (λ e : Z * Z * Z, e.1.1 = u) edges.

(** The stream extraction yields an [int], an [int] and a [long long];
    node identifiers stay below [INT_MAX], so that [max_node + 1] does not
    overflow. *)
Definition extract_typed (extract : string → option (Z * Z * Z)) : Prop :=
  ∀ line from to_ w, extract line = Some (from, to_, w) →
    from < 2147483647 ∧ to_ < 2147483647 ∧ w < 9223372036854775808.

(** An edge out of [u] that the loop would not relax, the sum being the
    64-bit sum of the code. *)
Definition tight64 (dist : list Z) (u : Z) (e : Edge) : Prop :=
  ∃ du dv, zlookup dist u = Some du ∧ zlookup dist (to e) = Some dv ∧
           dv ≤ add64 du (weight e).

(** A distance vector on which the relaxation has nothing left to do: the
    source is at 0 and no edge out of a reached node passes the test
    [nd < dist[edge.to]]. *)
Definition relaxation_fixpoint (g : Graph) (s : Z) (dist : list Z) : Prop :=
  length dist = length g ∧
  Forall (λ d, 0 ≤ d ≤ UINT64_MAX) dist ∧
  zlookup dist s = Some 0 ∧
  ∀ u du es e, zlookup dist u = Some du → du < UINT64_MAX →
    zlookup g u = Some es → e ∈ es → tight64 dist u e.

Definition sum_dist (dist : list Z) : Z := foldr Z.add 0 dist.

(** The part of the queue contract that does not depend on the order of
    the keys: a queue stands for the list of its pairs, [push] adds one,
    [pop] removes and returns one. *)
Class PriorityQueueSound (Q : Type) `{PriorityQueue Q} : Type := {
  pqs_inv : Q → Prop;
  pqs_elems : Q → list (Z * Z);
  pqs_new_inv : pqs_inv pq_new;
  pqs_new_elems : pqs_elems pq_new = [];
  pqs_empty_elems q : pqs_inv q → pq_empty q = true ↔ pqs_elems q = [];
  pqs_push_spec q key value :
    pqs_inv q → is_uint64 key →
    pqs_inv (pq_push key value q) ∧
    pqs_elems (pq_push key value q) ≡ₚ (key, value) :: pqs_elems q;
  pqs_pop_spec q :
    pqs_inv q → pqs_elems q ≠ [] →
    ∃ res q',
      pq_pop q = Ok (res, q') ∧ pqs_inv q' ∧
      pqs_elems q ≡ₚ res :: pqs_elems q'
}.

Section SoundInvariant.
Context {Q : Type} `{PriorityQueueSound Q}.

(** What the [while] loop keeps on every graph, wrap-around or not. *)
Record sound_inv (g : Graph) (s : Z) (st : sssp_state Q) : Prop := {
  snd_pq : pqs_inv (st_pq st);
  snd_len : length (st_dist st) = length g;
  snd_range : Forall (λ d, 0 ≤ d ≤ UINT64_MAX) (st_dist st);
  snd_source : zlookup (st_dist st) s = Some 0;
  snd_nodes : ∀ k v, (k, v) ∈ pqs_elems (st_pq st) →
    0 ≤ v < Z.of_nat (length g)
}.

(** A reached node is queued with its distance, or its edges are tight. *)
Definition settled (g : Graph) (st : sssp_state Q) (x : Z) : Prop :=
  ∀ dx, zlookup (st_dist st) x = Some dx → dx < UINT64_MAX →
    (dx, x) ∈ pqs_elems (st_pq st) ∨
    ∀ es e, zlookup g x = Some es → e ∈ es → tight64 (st_dist st) x e.

(** The node [u] under relaxation with key [d], the edges [pre] done. *)
Definition settling (st : sssp_state Q) (u d : Z) (pre : list Edge) : Prop :=
  (∃ du, zlookup (st_dist st) u = Some du ∧ (du, u) ∈ pqs_elems (st_pq st)) ∨
  (zlookup (st_dist st) u = Some d ∧ ∀ e, e ∈ pre → tight64 (st_dist st) u e).

(** The quantity every iteration of the loop decreases. *)
Definition loop_measure (st : sssp_state Q) : Z :=
  2 * sum_dist (st_dist st) + Z.of_nat (length (pqs_elems (st_pq st))).
End SoundInvariant.

(** ** Example inputs *)

(** Scenario A *)
Definition scenario_A : Graph :=
  [ [mkEdge 1 4; mkEdge 2 1]; [mkEdge 3 1]; [mkEdge 1 2]; [] ].

(** Scenario D *)
Definition scenario_D : Graph := [ [mkEdge 1 0]; [mkEdge 2 0]; [] ].

(** Seven nodes, weights that [read_graph_from_file] accepts (below 2^63),
    and paths whose sums pass 2^64: node 2 is at distance 2^64 - 4. *)
Definition wrapping_edges : list (Z * Z * Z) :=
  [ (0, 1, 9223372036854775806); (1, 2, 9223372036854775806);
    (2, 3, 5); (2, 4, 1); (4, 5, 1); (3, 5, 1); (5, 6, 3) ].

Definition wrapping_graph : Graph :=
  [ [mkEdge 1 9223372036854775806]; [mkEdge 2 9223372036854775806];
    [mkEdge 3 5; mkEdge 4 1]; [mkEdge 5 1]; [mkEdge 5 1]; [mkEdge 6 3]; [] ].

(** A stand-in for the stream extraction and for [std::stoi] that knows
    the few strings of the examples. *)
Definition sample_extract (line : string) : option (Z * Z * Z) :=
  if decide (line = "0 1 4") then Some (0, 1, 4)
  else if decide (line = "1 2 7") then Some (1, 2, 7)
  else if decide (line = "1 2 -7") then Some (1, 2, -7)
  else None.

Definition sample_stoi (arg : string) : outcome Z :=
  if decide (arg = "0") then Ok 0
  else if decide (arg = "5") then Ok 5
  else Throw (logic_error "stoi").

Definition sample_lines : list string := ["# sample"; "0 1 4"; ""; "1 2 7"].

(** * Properties *)

(** ** Fuel *)

Section Fuel.
Context {Q : Type} `{PriorityQueue Q}.

Lemma sssp_loop_fuel_mono (g : Graph) n m (st : sssp_state Q) r :
  sssp_loop n g st = r → r ≠ OutOfFuel → (n ≤ m)%nat →
  sssp_loop m g st = r.
Proof.
  revert m st r. induction n as [|n IH]; intros m st r Hr Hne Hle.
  - simpl in Hr. congruence.
  - destruct m as [|m]; [lia|].
    simpl in *. destruct (pq_empty (st_pq st)); [done|].
    destruct (pq_pop (st_pq st)) as [[[d u] q']| | |]; simpl in *; try done.
    destruct (vec_get (st_dist st) u) as [du| | |]; simpl in *; try done.
    case_bool_decide.
    + apply IH; [done|done|lia].
    + destruct (vec_get g u) as [es| | |]; simpl in *; try done.
      destruct (relax_edges d es _) as [st2| | |]; simpl in *; try done.
      apply IH; [done|done|lia].
Qed.

Lemma sssp_run_fuel_mono (g : Graph) s n m r :
  sssp_run n g s = r → r ≠ OutOfFuel → (n ≤ m)%nat →
  sssp_run m g s = r.
Proof.
  unfold sssp_run. intros Hr Hne Hle.
  destruct (sssp_init g s) as [st| | |]; simpl in *; try done.
  by eapply sssp_loop_fuel_mono.
Qed.
End Fuel.

Lemma dijkstra_fuel_mono g s n m d :
  dijkstra n g s = Ok d → (n ≤ m)%nat → dijkstra m g s = Ok d.
Proof.
  unfold dijkstra. intros Hr Hle.
  destruct (sssp_run n g s) as [st| | |] eqn:E; simpl in Hr; try done.
  by rewrite (sssp_run_fuel_mono g s n m (Ok st)).
Qed.

Lemma breaking_sorting_barrier_sssp_fuel_mono g s n m d :
  breaking_sorting_barrier_sssp n g s = Ok d → (n ≤ m)%nat →
  breaking_sorting_barrier_sssp m g s = Ok d.
Proof.
  unfold breaking_sorting_barrier_sssp. intros Hr Hle.
  destruct (sssp_run n g s) as [st| | |] eqn:E; simpl in Hr; try done.
  by rewrite (sssp_run_fuel_mono g s n m (Ok st)).
Qed.

Lemma radix_calls_fuel_mono g s n m l :
  radix_calls n g s = Ok l → (n ≤ m)%nat → radix_calls m g s = Ok l.
Proof.
  unfold radix_calls. intros Hr Hle.
  destruct (sssp_run n g s) as [st| | |] eqn:E; simpl in Hr; try done.
  by rewrite (sssp_run_fuel_mono g s n m (Ok st)).
Qed.

(** ** Scenarios *)

Example scenario_A_built :
  build_graph 4 [(0, 1, 4); (0, 2, 1); (2, 1, 2); (1, 3, 1)] = scenario_A.
Proof. reflexivity. Qed.

Example scenario_D_built : build_graph 3 [(0, 1, 0); (1, 2, 0)] = scenario_D.
Proof. reflexivity. Qed.

(** C7. On the graph of scenario A and source 0, [dijkstra] and
    [breaking_sorting_barrier_sssp] both return [0; 3; 1; 4], with any fuel
    that covers the six tests of the loop condition. *)
Theorem scenario_A_distances (fuel : nat) :
  (6 ≤ fuel)%nat →
  dijkstra fuel scenario_A 0 = Ok [0; 3; 1; 4] ∧
  breaking_sorting_barrier_sssp fuel scenario_A 0 = Ok [0; 3; 1; 4].
Proof.
  intros Hfuel. split.
  - apply (dijkstra_fuel_mono _ _ 6); [by vm_compute | done].
  - apply (breaking_sorting_barrier_sssp_fuel_mono _ _ 6); [by vm_compute | done].
Qed.

Lemma scenario_A_distances_witness :
  dijkstra 6 scenario_A 0 = Ok [0; 3; 1; 4] ∧
  breaking_sorting_barrier_sssp 6 scenario_A 0 = Ok [0; 3; 1; 4].
Proof. apply (scenario_A_distances 6). lia. Defined.

(** C8. On the graph of scenario D and source 0,
    [breaking_sorting_barrier_sssp] returns [0; 0; 0]; no [pop] of the run
    finds bucket 0 empty, so [relocate] is never invoked, and every pushed
    key equals the watermark at the time of the call. *)
Theorem scenario_D_no_relocate (fuel : nat) :
  (4 ≤ fuel)%nat →
  breaking_sorting_barrier_sssp fuel scenario_D 0 = Ok [0; 0; 0] ∧
  ∃ calls,
    radix_calls fuel scenario_D 0 = Ok calls ∧
    Forall (λ c, relocates c = false) calls ∧
    Forall (λ c, pushes_at_last c = true) calls ∧
    length (filter is_pop calls) = 3%nat.
Proof.
  intros Hfuel. split.
  - apply (breaking_sorting_barrier_sssp_fuel_mono _ _ 4); [by vm_compute | done].
  - destruct (radix_calls 4 scenario_D 0) as [calls| | |] eqn:E;
      try (vm_compute in E; discriminate).
    exists calls. split; [by apply (radix_calls_fuel_mono _ _ 4)|].
    vm_compute in E. injection E as <-.
    split_and!; [by repeat constructor | by repeat constructor | ].
    reflexivity.
Qed.

Lemma scenario_D_no_relocate_witness :
  breaking_sorting_barrier_sssp 4 scenario_D 0 = Ok [0; 0; 0] ∧
  ∃ calls,
    radix_calls 4 scenario_D 0 = Ok calls ∧
    Forall (λ c, relocates c = false) calls ∧
    Forall (λ c, pushes_at_last c = true) calls ∧
    length (filter is_pop calls) = 3%nat.
Proof. apply (scenario_D_no_relocate 4). lia. Defined.

(** C4. A fresh radix heap that receives [push(5,v1)], [push(5,v2)],
    [push(9,v3)], [push(100,v4)] and is then popped four times returns the
    keys 5, 5, 9, 100 in this order, whatever the four values are. *)
Theorem scenario_E_keys (v1 v2 v3 v4 : Z) :
  ∃ popped h,
    pop_n 4 (RadixHeap.push 100 v4 (RadixHeap.push 9 v3
              (RadixHeap.push 5 v2 (RadixHeap.push 5 v1 RadixHeap.new))))
    = Ok (popped, h) ∧
    popped.*1 = [5; 5; 9; 100] ∧
    popped ≡ₚ [(5, v1); (5, v2); (9, v3); (100, v4)] ∧
    RadixHeap.empty h = true.
Proof.
  eexists _, _. split; [vm_compute; reflexivity|].
  split_and!; [reflexivity | | reflexivity].
  apply Permutation_swap.
Qed.

(** ** The cross-check *)

Lemma verify_from_ok i a b :
  length a = length b → verify_from i a b = Ok () → a = b.
Proof.
  revert i b. induction a as [|x a IH]; intros i [|y b] Hlen Hv; try done.
  simpl in *. case_bool_decide as Hxy; [done|].
  f_equal; [by destruct (decide (x = y)) | apply (IH (S i)); [lia | done]].
Qed.

Lemma verify_from_refl i a : verify_from i a a = Ok ().
Proof.
  revert i. induction a as [|x a IH]; intros i; [done|].
  simpl. case_bool_decide; [done | apply IH].
Qed.

Lemma verify_from_mismatch i a b :
  length a = length b → a ≠ b →
  ∃ j x y,
    verify_from i a b = Throw (runtime_error (mismatch_msg (i + j) x y)) ∧
    a !! j = Some x ∧ b !! j = Some y ∧ x ≠ y ∧
    ∀ k, (k < j)%nat → a !! k = b !! k.
Proof.
  revert i b. induction a as [|x a IH]; intros i [|y b] Hlen Hne; try done.
  simpl in *. case_bool_decide as Hxy.
  - exists 0%nat, x, y. rewrite Nat.add_0_r. split_and!; try done. lia.
  - assert (x = y) as -> by by destruct (decide (x = y)).
    destruct (IH (S i) b) as (j & x' & y' & Hv & Ha & Hb & Hd & Hlt);
      [lia | congruence |].
    exists (S j), x', y'. replace (i + S j)%nat with (S i + j)%nat by lia.
    split_and!; try done.
    intros [|k] Hk; [done|]. apply Hlt. lia.
Qed.

Lemma mismatch_msg_not_size i x y : mismatch_msg i x y ≠ size_mismatch_msg.
Proof. unfold mismatch_msg, size_mismatch_msg. simpl. discriminate. Qed.

(** C5, as the code has it. [verify_results] returns normally exactly when
    the two vectors have the same length and agree at every index. Vectors
    of different lengths are rejected with the size message, which names
    no index and no value; vectors of the same length that differ are
    rejected with the first index at which they differ and the two values
    found there. *)
Theorem verify_results_spec (a b : list Z) :
  (verify_results a b = Ok () ↔
     length a = length b ∧ ∀ i, a !! i = b !! i) ∧
  (length a ≠ length b →
     verify_results a b = Throw (runtime_error size_mismatch_msg)) ∧
  (length a = length b → a ≠ b →
     ∃ i x y, reports_first_mismatch a b i x y).
Proof.
  unfold reports_first_mismatch, verify_results. split_and!.
  - destruct (decide (length a = length b)) as [Hlen|Hlen].
    + rewrite bool_decide_false by (intros ?; done). split.
      * intros Hv. by rewrite (verify_from_ok 0 a b Hlen Hv).
      * intros [_ Heq]. apply list_eq in Heq as ->. apply verify_from_refl.
    + rewrite bool_decide_true by done. split; [done | by intros [? _]].
  - intros Hlen. by rewrite bool_decide_true.
  - intros Hlen Hne. rewrite bool_decide_false by (intros ?; done).
    destruct (verify_from_mismatch 0 a b Hlen Hne)
      as (j & x & y & Hv & Ha & Hb & Hd & Hlt).
    by exists j, x, y.
Qed.

Lemma verify_results_spec_witness :
  verify_results [0; 3; 1] [0; 3] = Throw (runtime_error size_mismatch_msg) ∧
  ∃ i x y, reports_first_mismatch [0; 3; 1; 4] [0; 3; 2; 5] i x y.
Proof.
  split.
  - apply (verify_results_spec [0; 3; 1] [0; 3]). simpl. lia.
  - apply (verify_results_spec [0; 3; 1; 4] [0; 3; 2; 5]);
      [reflexivity | discriminate].
Defined.

(** C5, as the specification words it, fails on vectors of different lengths:
    [5] and [7; 8] differ at index 0, but the report is the size message
    and names neither an index nor the values 5 and 7. *)
Lemma verify_results_size_counterexample :
  [5] ≠ [7; 8] ∧
  verify_results [5] [7; 8] = Throw (runtime_error size_mismatch_msg) ∧
  ¬ ∃ i x y, reports_first_mismatch [5] [7; 8] i x y.
Proof.
  split_and!; [discriminate | reflexivity |].
  intros (i & x & y & Hv & _).
  change (verify_results [5] [7; 8])
    with (Throw (A:=unit) (runtime_error size_mismatch_msg)) in Hv.
  injection Hv as Hv. by apply (mismatch_msg_not_size i x y).
Qed.

(** ** Bits: [__builtin_clzll] and [bucket_index] *)

Lemma two64_pow : two64 = 2 ^ 64.
Proof. reflexivity. Qed.

Lemma testbit_top (m x : Z) :
  0 ≤ m → 0 ≤ x < 2 ^ (m + 1) → (Z.testbit x m = true ↔ 2 ^ m ≤ x).
Proof.
  intros Hm Hx. rewrite Z.testbit_true by done.
  assert (0 < 2 ^ m) by (apply Z.pow_pos_nonneg; lia).
  assert (2 ^ (m + 1) = 2 * 2 ^ m) as Hp by (rewrite Z.pow_add_r; lia).
  assert (0 ≤ x / 2 ^ m < 2) as Hq.
  { split; [apply Z.div_pos; lia | apply Z.div_lt_upper_bound; lia]. }
  rewrite (Z.mod_small _ 2) by done.
  split; intros Hb.
  - destruct (decide (2 ^ m ≤ x)); [done|].
    rewrite Z.div_small in Hb by lia. lia.
  - assert (1 ≤ x / 2 ^ m); [|lia].
    apply Z.div_le_lower_bound; lia.
Qed.

Lemma clz_from_log2 (n : nat) (x : Z) :
  0 < x < 2 ^ Z.of_nat n → clz_from n x = Z.of_nat n - 1 - Z.log2 x.
Proof.
  induction n as [|n IH]; intros Hx.
  - simpl in Hx. lia.
  - simpl clz_from. replace (Z.of_nat (S n)) with (Z.of_nat n + 1) in * by lia.
    destruct (Z.testbit x (Z.of_nat n)) eqn:Hb.
    + apply testbit_top in Hb; [|lia|lia].
      assert (Z.log2 x = Z.of_nat n); [|lia].
      apply Z.log2_unique; lia.
    + assert (x < 2 ^ Z.of_nat n) as Hlt.
      { destruct (decide (2 ^ Z.of_nat n ≤ x)) as [Hge|]; [|lia].
        apply testbit_top in Hge; [congruence|lia|lia]. }
      rewrite IH by lia. lia.
Qed.

Lemma bucket_index_log2 (a : Z) :
  is_uint64 a → a ≠ 0 → RadixHeap.bucket_index a = Z.log2 a + 1.
Proof.
  intros [Ha0 Ha] Hne. unfold RadixHeap.bucket_index, clzll.
  rewrite bool_decide_false by done.
  rewrite clz_from_log2; [lia|]. rewrite two64_pow in Ha. simpl Z.of_nat. lia.
Qed.

Lemma bucket_index_zero : RadixHeap.bucket_index 0 = 0.
Proof. reflexivity. Qed.

Lemma bucket_index_le (a n : Z) :
  is_uint64 a → 0 ≤ n → (RadixHeap.bucket_index a ≤ n ↔ a < 2 ^ n).
Proof.
  intros Ha Hn. destruct (decide (a = 0)) as [->|Hne].
  - rewrite bucket_index_zero.
    assert (0 < 2 ^ n) by (apply Z.pow_pos_nonneg; lia). lia.
  - rewrite bucket_index_log2 by done. destruct Ha as [Ha0 Ha].
    rewrite (Z.log2_lt_pow2 a n) by lia. lia.
Qed.

Lemma bucket_index_range (a : Z) :
  is_uint64 a → 0 ≤ RadixHeap.bucket_index a ≤ 64.
Proof.
  intros Ha. split.
  - destruct (decide (a = 0)) as [->|Hne]; [done|].
    rewrite bucket_index_log2 by done. pose proof (Z.log2_nonneg a). lia.
  - apply bucket_index_le; [done|lia|]. rewrite <- two64_pow. apply Ha.
Qed.

Lemma bucket_index_zero_iff (a : Z) :
  is_uint64 a → (RadixHeap.bucket_index a = 0 ↔ a = 0).
Proof.
  intros Ha. split; [|by intros ->].
  intros Hi. assert (a < 2 ^ 0); [|unfold is_uint64 in Ha; simpl in *; lia].
  apply bucket_index_le; [done|lia|lia].
Qed.

(** Through shifts: the bucket index is at most [n] when nothing is left
    above bit [n - 1], and it is [n + 1] when bit [n] is the highest. *)
Lemma bucket_index_le_shiftr (a n : Z) :
  is_uint64 a → 0 ≤ n → (RadixHeap.bucket_index a ≤ n ↔ Z.shiftr a n = 0).
Proof.
  intros Ha Hn. rewrite bucket_index_le by done.
  rewrite Z.shiftr_div_pow2 by done.
  assert (0 < 2 ^ n) by (apply Z.pow_pos_nonneg; lia).
  destruct Ha as [Ha0 _]. split; intros Hlt.
  - apply Z.div_small. lia.
  - apply Z.div_small_iff in Hlt; lia.
Qed.

Lemma bucket_index_succ_shiftr (a n : Z) :
  is_uint64 a → 0 ≤ n → (RadixHeap.bucket_index a = n + 1 ↔ Z.shiftr a n = 1).
Proof.
  intros Ha Hn.
  pose proof (bucket_index_le a n Ha Hn) as Hle.
  pose proof (bucket_index_le a (n + 1) Ha ltac:(lia)) as Hle'.
  rewrite Z.shiftr_div_pow2 by done.
  assert (0 < 2 ^ n) by (apply Z.pow_pos_nonneg; lia).
  assert (2 ^ (n + 1) = 2 * 2 ^ n) as Hp by (rewrite Z.pow_add_r; lia).
  destruct Ha as [Ha0 _]. split; intros Hi.
  - assert (2 ^ n ≤ a < 2 * 2 ^ n) as [? ?] by lia.
    symmetry. apply Z.div_unique with (r := a - 2 ^ n); lia.
  - assert (2 ^ n ≤ a < 2 * 2 ^ n) as [? ?]; [|lia].
    pose proof (Z.div_mod a (2 ^ n) ltac:(lia)) as Hdm.
    pose proof (Z.mod_pos_bound a (2 ^ n) ltac:(lia)). rewrite Hi in Hdm. lia.
Qed.

Lemma lxor_uint64 (a b : Z) : is_uint64 a → is_uint64 b → is_uint64 (Z.lxor a b).
Proof.
  intros [Ha0 Ha] [Hb0 Hb]. split; [by apply Z.lxor_nonneg|].
  destruct (decide (Z.lxor a b = 0)) as [->|Hne]; [done|].
  assert (0 ≤ Z.lxor a b) by by apply Z.lxor_nonneg.
  rewrite two64_pow in *. apply Z.log2_lt_pow2; [lia|].
  pose proof (Z.log2_lxor a b Ha0 Hb0) as Hl.
  assert (Z.log2 a < 64).
  { destruct (decide (a = 0)) as [->|]; [done|]. apply Z.log2_lt_pow2; lia. }
  assert (Z.log2 b < 64).
  { destruct (decide (b = 0)) as [->|]; [done|]. apply Z.log2_lt_pow2; lia. }
  lia.
Qed.

Lemma lxor_via (x y l : Z) : Z.lxor x y = Z.lxor (Z.lxor x l) (Z.lxor y l).
Proof.
  rewrite Z.lxor_assoc, (Z.lxor_comm y l), <- (Z.lxor_assoc l l y).
  by rewrite Z.lxor_nilpotent, Z.lxor_0_l.
Qed.

(** Two keys of one bucket fall, relative to each other, into a lower
    bucket. *)
Lemma bucket_index_same_bucket (x y l i : Z) :
  is_uint64 x → is_uint64 y → is_uint64 l → 0 < i →
  RadixHeap.bucket_index (Z.lxor x l) = i →
  RadixHeap.bucket_index (Z.lxor y l) = i →
  RadixHeap.bucket_index (Z.lxor x y) < i.
Proof.
  intros Hx Hy Hl Hi Hxi Hyi.
  replace i with ((i - 1) + 1) in Hxi, Hyi by lia.
  apply bucket_index_succ_shiftr in Hxi; [|by apply lxor_uint64|lia].
  apply bucket_index_succ_shiftr in Hyi; [|by apply lxor_uint64|lia].
  assert (RadixHeap.bucket_index (Z.lxor x y) ≤ i - 1); [|lia].
  apply bucket_index_le_shiftr; [by apply lxor_uint64|lia|].
  by rewrite (lxor_via x y l), Z.shiftr_lxor, Hxi, Hyi.
Qed.

(** Moving the watermark inside a lower bucket does not move the keys of
    a higher bucket. *)
Lemma bucket_index_higher_bucket (x l l' j : Z) :
  is_uint64 x → is_uint64 l → is_uint64 l' →
  RadixHeap.bucket_index (Z.lxor x l) = j →
  RadixHeap.bucket_index (Z.lxor l' l) < j →
  RadixHeap.bucket_index (Z.lxor x l') = j.
Proof.
  intros Hx Hl Hl' Hxj Hlj.
  pose proof (bucket_index_range (Z.lxor l' l) (lxor_uint64 _ _ Hl' Hl)).
  replace j with ((j - 1) + 1) in Hxj |- * by lia.
  apply bucket_index_succ_shiftr in Hxj; [|by apply lxor_uint64|lia].
  assert (Z.shiftr (Z.lxor l' l) (j - 1) = 0) as Hz.
  { apply bucket_index_le_shiftr; [by apply lxor_uint64|lia|lia]. }
  apply bucket_index_succ_shiftr; [by apply lxor_uint64|lia|].
  by rewrite (lxor_via x l' l), Z.shiftr_lxor, Hxj, Hz.
Qed.

Lemma lxor_one_cases (q : Z) : 0 ≤ q → Z.lxor q 1 = q + 1 ∨ Z.lxor q 1 = q - 1.
Proof. destruct q as [|[p|p|]|]; simpl; intros; auto; lia. Qed.

(** Above the watermark, a key of a lower bucket is smaller than a key of
    a higher bucket. *)
Lemma bucket_index_order (x y l : Z) :
  is_uint64 x → is_uint64 y → is_uint64 l → l ≤ x → l ≤ y →
  RadixHeap.bucket_index (Z.lxor x l) < RadixHeap.bucket_index (Z.lxor y l) →
  x < y.
Proof.
  intros Hx Hy Hl Hlx Hly Hlt.
  pose proof (bucket_index_range _ (lxor_uint64 _ _ Hx Hl)).
  set (n := RadixHeap.bucket_index (Z.lxor y l) - 1).
  assert (0 ≤ n) by (unfold n; lia).
  assert (Z.shiftr (Z.lxor y l) n = 1) as Hy1.
  { apply bucket_index_succ_shiftr; [by apply lxor_uint64|done|unfold n; lia]. }
  assert (Z.shiftr (Z.lxor x l) n = 0) as Hx0.
  { apply bucket_index_le_shiftr; [by apply lxor_uint64|done|unfold n; lia]. }
  rewrite Z.shiftr_lxor in Hy1, Hx0. apply Z.lxor_eq in Hx0.
  rewrite !Z.shiftr_div_pow2 in * by done.
  assert (0 < 2 ^ n) by (apply Z.pow_pos_nonneg; lia).
  destruct Hx as [Hx _], Hy as [Hy _], Hl as [Hl _].
  assert (0 ≤ l / 2 ^ n) as Hq by (apply Z.div_pos; lia).
  assert (l / 2 ^ n ≤ y / 2 ^ n) as Hmono by (apply Z.div_le_mono; lia).
  assert (y / 2 ^ n = Z.lxor (l / 2 ^ n) 1) as Hyq.
  { rewrite <- Hy1, (Z.lxor_comm (y / 2 ^ n)), <- Z.lxor_assoc.
    by rewrite Z.lxor_nilpotent, Z.lxor_0_l. }
  destruct (lxor_one_cases _ Hq) as [Hc|Hc]; rewrite Hc in Hyq; [|lia].
  pose proof (Z.div_mod x (2 ^ n) ltac:(lia)).
  pose proof (Z.mod_pos_bound x (2 ^ n) ltac:(lia)).
  pose proof (Z.div_mod y (2 ^ n) ltac:(lia)).
  pose proof (Z.mod_pos_bound y (2 ^ n) ltac:(lia)).
  nia.
Qed.

(** ** Vectors of buckets *)

Section bucket_lists.
Context {A : Type}.
Implicit Types (bs : list (list A)) (b : list A).

Lemma concat_alter_snoc bs (i : nat) x :
  (i < length bs)%nat → concat (alter (λ b, b ++ [x]) i bs) ≡ₚ x :: concat bs.
Proof.
  revert i. induction bs as [|b bs IH]; intros [|i] Hi; simpl in *; try lia.
  - rewrite <- (assoc_L (++)). simpl. symmetry. apply Permutation_middle.
  - etrans; [apply Permutation_app_head, (IH i); lia|].
    symmetry. apply Permutation_middle.
Qed.

Lemma concat_insert_nil bs (i : nat) b :
  bs !! i = Some b → concat bs ≡ₚ b ++ concat (<[i := []]> bs).
Proof.
  revert i. induction bs as [|b' bs IH]; intros [|i] Hi; simpl in *; try done.
  - by injection Hi as ->.
  - etrans; [apply Permutation_app_head, (IH i Hi)|].
    by rewrite !(assoc_L (++)), (comm (++) b' b).
Qed.

Lemma concat_all_nil bs :
  (∀ (i : nat) b, bs !! i = Some b → b = []) → concat bs = [].
Proof.
  induction bs as [|b bs IH]; intros Hall; [done|]. simpl.
  rewrite (Hall 0%nat b eq_refl). apply IH.
  intros i b' Hi. by apply (Hall (S i)).
Qed.

Lemma filter_none (P : A → Prop) `{∀ x, Decision (P x)} (l : list A) :
  Forall (λ x, ¬ P x) l → filter P l = [].
Proof.
  induction 1 as [|x l Hx _ IH]; [done|]. by rewrite filter_cons_False.
Qed.

Lemma elem_of_concat_lookup bs x :
  x ∈ concat bs ↔ ∃ (i : nat) b, bs !! i = Some b ∧ x ∈ b.
Proof.
  induction bs as [|b bs IH]; simpl.
  - split; [by intros ?%elem_of_nil | by intros (i & ? & ? & _)].
  - rewrite elem_of_app, IH. split.
    + intros [Hx|(i & b' & Hi & Hx)]; [by exists 0%nat, b | by exists (S i), b'].
    + intros ([|i] & b' & Hi & Hx); simpl in Hi.
      * injection Hi as ->. by left.
      * right. by exists i, b'.
Qed.
End bucket_lists.

(** ** Radix heap: [push] *)

Lemma target_lt_65 (k l : Z) :
  is_uint64 k → is_uint64 l →
  (Z.to_nat (RadixHeap.bucket_index (Z.lxor k l)) < 65)%nat.
Proof.
  intros Hk Hl. pose proof (bucket_index_range _ (lxor_uint64 _ _ Hk Hl)). lia.
Qed.

Lemma push_entries key value h :
  heap_wf h → is_uint64 key →
  entries (RadixHeap.push key value h) ≡ₚ (key, value) :: entries h.
Proof.
  intros (Hlen & _ & Hl & _) Hk. unfold entries. simpl.
  apply concat_alter_snoc. rewrite Hlen. by apply target_lt_65.
Qed.

Lemma push_wf key value h :
  heap_wf h → is_uint64 key → heap_wf (RadixHeap.push key value h).
Proof.
  intros Hwf Hk. pose proof (push_entries key value h Hwf Hk) as Hp.
  destruct Hwf as (Hlen & Hsz & Hl & Hks). split_and!.
  - simpl. by rewrite length_alter.
  - rewrite Hp. simpl. lia.
  - done.
  - rewrite Hp. by constructor.
Qed.

Lemma push_bucket_inv key value h :
  heap_wf h → is_uint64 key → bucket_inv h →
  bucket_inv (RadixHeap.push key value h).
Proof.
  intros (Hlen & _ & Hl & _) Hk Hinv i b e Hi He. simpl in *.
  pose proof (bucket_index_range _ (lxor_uint64 _ _ Hk Hl)) as Hr.
  set (idx := Z.to_nat _) in Hi.
  destruct (decide (idx = i)) as [<-|Hne].
  - rewrite list_lookup_alter in Hi. rewrite decide_True in Hi by done.
    destruct (RadixHeap.buckets h !! idx) as [b0|] eqn:Hb0; [|done].
    injection Hi as <-. apply elem_of_app in He as [He|He].
    + by apply (Hinv idx b0).
    + apply list_elem_of_singleton in He as ->. simpl. unfold idx. lia.
  - rewrite list_lookup_alter_ne in Hi by done. by apply (Hinv i b).
Qed.

Lemma push_keys_above key value h :
  heap_wf h → is_uint64 key → RadixHeap.last h ≤ key →
  keys_above_last h → keys_above_last (RadixHeap.push key value h).
Proof.
  intros Hwf Hk Hle Hab. unfold keys_above_last.
  rewrite (push_entries key value h Hwf Hk). by constructor.
Qed.

Lemma new_wf : heap_wf RadixHeap.new.
Proof. split_and!; [done | done | done | by constructor]. Qed.

Lemma new_bucket_inv : bucket_inv RadixHeap.new.
Proof.
  intros i b e Hi He.
  change (replicate 65 ([] : list (Z * Z)) !! i = Some b) in Hi.
  apply lookup_replicate in Hi as [-> _]. by apply elem_of_nil in He.
Qed.

Lemma new_keys_above : keys_above_last RadixHeap.new.
Proof. by constructor. Qed.

(** ** Radix heap: [relocate] *)

Lemma first_nonempty_spec (i : nat) (bs : list (list (Z * Z))) :
  let j := RadixHeap.first_nonempty i bs in
  (i ≤ j ≤ i + length bs)%nat ∧
  (∀ k, (i ≤ k < j)%nat → bs !! (k - i)%nat = Some []) ∧
  ((j < i + length bs)%nat → ∃ b, bs !! (j - i)%nat = Some b ∧ b ≠ []).
Proof.
  revert i. induction bs as [|b bs IH]; intros i; simpl.
  - split; [lia|]. split; intros; lia.
  - destruct b as [|x b].
    + destruct (IH (S i)) as (Hr & Hbelow & Hat). split; [lia|]. split.
      * intros k Hk. destruct (decide (k = i)) as [->|Hne].
        { by rewrite Nat.sub_diag. }
        replace (k - i)%nat with (S (k - S i)) by lia. apply Hbelow. lia.
      * intros Hlt. destruct Hat as (b & Hb & Hne); [lia|].
        exists b. split; [|done].
        by replace (RadixHeap.first_nonempty (S i) bs - i)%nat
          with (S (RadixHeap.first_nonempty (S i) bs - S i)) by lia.
    + split; [lia|]. split; [intros; lia|].
      intros _. exists (x :: b). by rewrite Nat.sub_diag.
Qed.

Lemma min_key_spec (m : Z) (items : list (Z * Z)) :
  let r := RadixHeap.min_key m items in
  r ≤ m ∧ Forall (λ it, r ≤ it.1) items ∧ (r = m ∨ r ∈ items.*1).
Proof.
  revert m. induction items as [|it items IH]; intros m; simpl.
  - split; [lia|]. split; [constructor | by left].
  - destruct (IH (if bool_decide (it.1 < m) then it.1 else m))
      as (Hle & Hall & Hin).
    unfold RadixHeap.min_key in *. simpl.
    case_bool_decide.
    + split; [lia|]. split; [constructor; [lia | done]|].
      right. destruct Hin as [->|Hin]; [by left | by right].
    + split; [lia|]. split; [constructor; [lia | done]|].
      destruct Hin as [->|Hin]; [by left | right; by right].
Qed.

Lemma redistribute_ok (i : nat) nl items bs :
  Forall (λ it, target nl it ≠ i) items →
  ∃ bs', RadixHeap.redistribute i nl items bs = Ok bs' ∧
    length bs' = length bs ∧
    ∀ j : nat, bs' !! j =
      (λ b, b ++ filter (λ it, target nl it = j) items) <$> bs !! j.
Proof.
  revert bs. induction items as [|it items IH]; intros bs Hall.
  - exists bs. split; [done|]. split; [done|]. intros j.
    rewrite filter_nil. destruct (bs !! j); simpl; [by rewrite app_nil_r | done].
  - apply Forall_cons in Hall as [Hit Hall]. cbn [RadixHeap.redistribute].
    change (Z.to_nat (RadixHeap.bucket_index (Z.lxor it.1 nl)))
      with (target nl it).
    rewrite decide_False by done.
    destruct (IH (alter (λ b, b ++ [it]) (target nl it) bs) Hall)
      as (bs' & Hr & Hlen & Hlk).
    exists bs'. split; [done|]. split; [by rewrite Hlen, length_alter|].
    intros j. rewrite Hlk. destruct (decide (target nl it = j)) as [<-|Hne].
    + rewrite list_lookup_alter, decide_True by done.
      rewrite filter_cons_True by done.
      destruct (bs !! _); simpl; [|done]. by rewrite <- (assoc_L (++)).
    + rewrite list_lookup_alter_ne by done. by rewrite filter_cons_False.
Qed.

Lemma redistribute_perm (i : nat) nl items bs bs' :
  RadixHeap.redistribute i nl items bs = Ok bs' →
  Forall (λ it, (target nl it < length bs)%nat) items →
  concat bs' ≡ₚ items ++ concat bs.
Proof.
  revert bs. induction items as [|it items IH]; intros bs Hr Hall.
  - simpl in Hr. by injection Hr as ->.
  - apply Forall_cons in Hall as [Hit Hall]. cbn [RadixHeap.redistribute] in Hr.
    change (Z.to_nat (RadixHeap.bucket_index (Z.lxor it.1 nl)))
      with (target nl it) in Hr.
    destruct (decide (target nl it = i)); [done|].
    apply IH in Hr.
    + rewrite Hr, concat_alter_snoc by done. simpl.
      symmetry. apply Permutation_middle.
    + eapply Forall_impl; [done|]. intros x Hx. simpl in Hx.
      by rewrite length_alter.
Qed.

Lemma bucket0_empty_true h :
  RadixHeap.bucket0_empty h = true → RadixHeap.buckets h !! 0%nat = Some [].
Proof.
  unfold RadixHeap.bucket0_empty.
  by destruct (RadixHeap.buckets h !! 0%nat) as [[|??]|].
Qed.

Lemma entries_lookup h (i : nat) b e :
  RadixHeap.buckets h !! i = Some b → e ∈ b → e ∈ entries h.
Proof. intros Hi He. apply elem_of_concat_lookup. by exists i, b. Qed.

Lemma wf_key_uint64 h e : heap_wf h → e ∈ entries h → is_uint64 e.1.
Proof.
  intros (_ & _ & _ & Hks) He. by apply (proj1 (Forall_forall _ _) Hks).
Qed.

(** What [relocate] does on a well-formed heap whose bucket 0 is empty and
    which stores at least one pair. *)
Lemma relocate_spec h :
  heap_wf h → bucket_inv h →
  RadixHeap.bucket0_empty h = true → entries h ≠ [] →
  ∃ (i : nat) items h',
    RadixHeap.relocate h = Ok h' ∧
    (1 ≤ i < 65)%nat ∧
    RadixHeap.buckets h !! i = Some items ∧ items ≠ [] ∧
    (∀ j, (j < i)%nat → RadixHeap.buckets h !! j = Some []) ∧
    RadixHeap.last h' ∈ items.*1 ∧
    Forall (λ it, RadixHeap.last h' ≤ it.1) items ∧
    Forall (λ it, (target (RadixHeap.last h') it < i)%nat) items ∧
    RadixHeap.sz h' = RadixHeap.sz h ∧
    entries h' ≡ₚ entries h ∧
    (∀ j : nat, RadixHeap.buckets h' !! j =
       if decide (j = i) then Some []
       else (λ b, b ++ filter (λ it, target (RadixHeap.last h') it = j) items)
              <$> RadixHeap.buckets h !! j) ∧
    length (RadixHeap.buckets h') = 65%nat.
Proof.
  intros Hwf Hinv Hb0 Hne. pose proof Hwf as (Hlen & Hsz & Hl & Hks).
  apply bucket0_empty_true in Hb0.
  pose proof (first_nonempty_spec 1 (drop 1 (RadixHeap.buckets h)))
    as (Hr & Hbelow & Hat).
  remember (RadixHeap.first_nonempty 1 (drop 1 (RadixHeap.buckets h)))
    as i eqn:Hi.
  rewrite length_drop, Hlen in Hr, Hat.
  assert (∀ j, (j < i)%nat → RadixHeap.buckets h !! j = Some []) as Hlow.
  { intros [|j] Hj; [done|].
    specialize (Hbelow (S j) ltac:(lia)). rewrite lookup_drop in Hbelow.
    by replace (1 + (S j - 1))%nat with (S j) in Hbelow by lia. }
  assert (i ≠ 65%nat) as Hi65.
  { intros ->. apply Hne, concat_all_nil. intros j b Hj.
    pose proof (lookup_lt_Some _ _ _ Hj) as Hjlt. rewrite Hlen in Hjlt.
    rewrite Hlow in Hj by lia. by injection Hj. }
  destruct Hat as (items & Hitems & Hitems_ne); [lia|].
  rewrite lookup_drop in Hitems.
  replace (1 + (i - 1))%nat with i in Hitems by lia.
  destruct items as [|item0 rest]; [done|].
  pose proof (min_key_spec item0.1 (item0 :: rest)) as (_ & Hmin & Hin).
  remember (RadixHeap.min_key item0.1 (item0 :: rest)) as nl eqn:Hnl.
  assert (nl ∈ (item0 :: rest).*1) as Hnl_in.
  { destruct Hin as [->|Hin]; [|done]. apply list_elem_of_fmap_2. by left. }
  pose proof Hnl_in as Hnl_in'.
  apply list_elem_of_fmap in Hnl_in' as (it0 & Hnl0 & Hit0).
  assert (∀ it, it ∈ item0 :: rest → is_uint64 it.1) as Hu.
  { intros it Hit. eapply wf_key_uint64, entries_lookup; done. }
  assert (Forall (λ it, (target nl it < i)%nat) (item0 :: rest)) as Htgt.
  { apply Forall_forall. intros it Hit. unfold target.
    pose proof (Hinv i _ it Hitems Hit) as Hi1.
    pose proof (Hinv i _ it0 Hitems Hit0) as Hi2.
    rewrite Hnl0.
    pose proof (bucket_index_same_bucket it.1 it0.1 (RadixHeap.last h)
      (Z.of_nat i) (Hu _ Hit) (Hu _ Hit0) Hl ltac:(lia) Hi1 Hi2).
    pose proof (bucket_index_range _ (lxor_uint64 _ _ (Hu _ Hit) (Hu _ Hit0))).
    lia. }
  destruct (redistribute_ok i nl (item0 :: rest) (RadixHeap.buckets h))
    as (bs' & Hred & Hlen' & Hlk).
  { eapply Forall_impl; [exact Htgt|]. intros it Hit. simpl in Hit. lia. }
  exists i, (item0 :: rest),
    {| RadixHeap.buckets := <[i := []]> bs'; RadixHeap.last := nl;
       RadixHeap.sz := RadixHeap.sz h |}.
  split.
  { unfold RadixHeap.relocate. rewrite <- Hi, Hlen, decide_False by done.
    rewrite Hitems. cbv beta iota zeta. rewrite <- Hnl, Hred. reflexivity. }
  cbn [RadixHeap.buckets RadixHeap.last RadixHeap.sz].
  split; [lia|]. split; [done|]. split; [done|]. split; [done|].
  split; [done|]. split; [done|]. split; [done|]. split; [done|]. split.
  - unfold entries. cbn [RadixHeap.buckets].
    assert (bs' !! i = Some (item0 :: rest)) as Hbi.
    { rewrite Hlk, Hitems. cbn [fmap option_fmap option_map]. f_equal.
      rewrite filter_none, app_nil_r; [done|].
      eapply Forall_impl; [exact Htgt|]. intros it Hit. simpl in Hit. lia. }
    apply (Permutation_app_inv_l (item0 :: rest)).
    rewrite <- (concat_insert_nil bs' i _ Hbi).
    apply (redistribute_perm i nl _ _ _ Hred).
    eapply Forall_impl; [exact Htgt|]. intros it Hit. simpl in Hit. lia.
  - split; [|by rewrite length_insert, Hlen'].
    intros j. destruct (decide (j = i)) as [->|Hji].
    + apply list_lookup_insert_eq. lia.
    + rewrite list_lookup_insert_ne by done. apply Hlk.
Qed.

Lemma relocate_wf h h' :
  heap_wf h → bucket_inv h →
  RadixHeap.bucket0_empty h = true → entries h ≠ [] →
  RadixHeap.relocate h = Ok h' → heap_wf h'.
Proof.
  intros Hwf Hinv Hb0 Hne Hrel.
  destruct (relocate_spec h Hwf Hinv Hb0 Hne)
    as (i & items & h1 & Hrel' & Hi & Hitems & _ & _ & Hlast & _ & _
        & Hsz & Hperm & Hlk & Hlen').
  rewrite Hrel in Hrel'. injection Hrel' as <-.
  pose proof Hwf as (Hlen & Hsz0 & Hl & Hks). split_and!.
  - done.
  - by rewrite Hsz, Hsz0, Hperm.
  - apply list_elem_of_fmap in Hlast as (it & -> & Hit).
    eapply wf_key_uint64, entries_lookup; done.
  - by rewrite Hperm.
Qed.

Lemma relocate_bucket_inv h h' :
  heap_wf h → bucket_inv h →
  RadixHeap.bucket0_empty h = true → entries h ≠ [] →
  RadixHeap.relocate h = Ok h' → bucket_inv h'.
Proof.
  intros Hwf Hinv Hb0 Hne Hrel.
  destruct (relocate_spec h Hwf Hinv Hb0 Hne)
    as (i & items & h1 & Hrel' & Hi & Hitems & _ & Hlow & Hlast & _ & Htgt
        & _ & Hperm & Hlk & _).
  rewrite Hrel in Hrel'. injection Hrel' as <-.
  pose proof Hwf as (_ & _ & Hl & _).
  apply list_elem_of_fmap in Hlast as (it0 & Hnl & Hit0).
  assert (is_uint64 (RadixHeap.last h')) as Hl'.
  { rewrite Hnl. eapply wf_key_uint64, entries_lookup; done. }
  intros j b e Hj He. rewrite Hlk in Hj. destruct (decide (j = i)) as [->|Hji].
  { injection Hj as <-. by apply elem_of_nil in He. }
  destruct (RadixHeap.buckets h !! j) as [b0|] eqn:Hb0j; [|done].
  injection Hj as <-. apply elem_of_app in He as [He|He].
  - destruct (decide (j < i)%nat) as [Hlt|Hge].
    { rewrite Hlow in Hb0j by done. injection Hb0j as <-.
      by apply elem_of_nil in He. }
    apply bucket_index_higher_bucket with (l := RadixHeap.last h); try done.
    + eapply wf_key_uint64, entries_lookup; done.
    + by apply (Hinv j b0).
    + rewrite Hnl, (Hinv i items it0 Hitems Hit0). lia.
  - apply list_elem_of_filter in He as [Ht He]. unfold target in Ht.
    assert (is_uint64 e.1) as Hk.
    { apply (wf_key_uint64 h); [done|]. by apply (entries_lookup h i items). }
    pose proof (bucket_index_range _ (lxor_uint64 _ _ Hk Hl')). lia.
Qed.

Lemma relocate_keys_above h h' :
  heap_wf h → bucket_inv h → keys_above_last h →
  RadixHeap.bucket0_empty h = true → entries h ≠ [] →
  RadixHeap.relocate h = Ok h' → keys_above_last h'.
Proof.
  intros Hwf Hinv Hab Hb0 Hne Hrel.
  destruct (relocate_spec h Hwf Hinv Hb0 Hne)
    as (i & items & h1 & Hrel' & Hi & Hitems & _ & Hlow & Hlast & Hmin & _
        & _ & Hperm & _).
  rewrite Hrel in Hrel'. injection Hrel' as <-.
  pose proof Hwf as (_ & _ & Hl & _).
  apply list_elem_of_fmap in Hlast as (it0 & Hnl & Hit0).
  unfold keys_above_last in *. rewrite Hperm.
  apply Forall_forall. intros e He.
  pose proof (proj1 (Forall_forall _ _) Hab e He) as Hle. simpl in Hle.
  pose proof (proj1 (Forall_forall _ _) Hab it0
    (entries_lookup _ _ _ _ Hitems Hit0)) as Hle0. simpl in Hle0.
  pose proof He as He'.
  apply elem_of_concat_lookup in He' as (j & b & Hj & Hb).
  destruct (decide (j = i)) as [->|Hji].
  { rewrite Hitems in Hj. injection Hj as <-.
    by apply (proj1 (Forall_forall _ _) Hmin). }
  destruct (decide (j < i)%nat) as [Hlt|Hge].
  { rewrite Hlow in Hj by done. injection Hj as <-. by apply elem_of_nil in Hb. }
  rewrite Hnl. apply Z.lt_le_incl.
  apply bucket_index_order with (l := RadixHeap.last h); try done.
  - apply (wf_key_uint64 h); [done|]. by apply (entries_lookup h i items).
  - by apply (wf_key_uint64 h).
  - rewrite (Hinv i items it0 Hitems Hit0), (Hinv j b e Hj Hb). lia.
Qed.

(** After [relocate], bucket 0 holds a pair whose key is the new
    watermark. *)
Lemma relocate_bucket0 h h' :
  heap_wf h → bucket_inv h →
  RadixHeap.bucket0_empty h = true → entries h ≠ [] →
  RadixHeap.relocate h = Ok h' →
  ∃ b0 e, RadixHeap.buckets h' !! 0%nat = Some b0 ∧ e ∈ b0 ∧
          e.1 = RadixHeap.last h'.
Proof.
  intros Hwf Hinv Hb0 Hne Hrel.
  destruct (relocate_spec h Hwf Hinv Hb0 Hne)
    as (i & items & h1 & Hrel' & Hi & Hitems & _ & Hlow & Hlast & _ & _
        & _ & _ & Hlk & _).
  rewrite Hrel in Hrel'. injection Hrel' as <-.
  apply list_elem_of_fmap in Hlast as (it0 & Hnl & Hit0).
  pose proof (Hlk 0%nat) as H0. rewrite decide_False in H0 by lia.
  rewrite (bucket0_empty_true _ Hb0) in H0. simpl in H0.
  eexists _, it0. split; [exact H0|]. split; [|done].
  apply list_elem_of_filter. split; [|done].
  unfold target. by rewrite Hnl, Z.lxor_nilpotent.
Qed.

(** ** Radix heap: [pop] *)

Lemma take_back_spec h b0 :
  RadixHeap.buckets h !! 0%nat = Some b0 → b0 ≠ [] →
  ∃ res b',
    b0 = b' ++ [res] ∧
    RadixHeap.take_back h =
      Ok (res, {| RadixHeap.buckets := <[0%nat := b']> (RadixHeap.buckets h);
                  RadixHeap.last := RadixHeap.last h;
                  RadixHeap.sz := RadixHeap.sz h - 1 |}).
Proof.
  intros Hb0 Hne. unfold RadixHeap.take_back, vec_back, vec_pop_back.
  rewrite Hb0. destruct (last b0) as [res|] eqn:Hlast.
  - apply last_Some in Hlast as [b' ->]. exists res, b'.
    split; [done|]. by rewrite removelast_last.
  - by apply last_None in Hlast.
Qed.

Lemma take_back_entries h res h' :
  RadixHeap.take_back h = Ok (res, h') → entries h ≡ₚ res :: entries h'.
Proof.
  unfold RadixHeap.take_back, vec_back, vec_pop_back, entries.
  destruct (RadixHeap.buckets h) as [|b0 bs] eqn:Hbs; [done|]. simpl.
  destruct (last b0) as [r|] eqn:Hlast; [|done].
  intros [= <- <-]. simpl. apply last_Some in Hlast as [b' ->].
  rewrite removelast_last, <- (assoc_L (++)). simpl.
  symmetry. apply Permutation_middle.
Qed.

Lemma take_back_fields h res h' :
  RadixHeap.take_back h = Ok (res, h') →
  RadixHeap.last h' = RadixHeap.last h ∧
  RadixHeap.sz h' = RadixHeap.sz h - 1 ∧
  length (RadixHeap.buckets h') = length (RadixHeap.buckets h) ∧
  (∃ b0, RadixHeap.buckets h !! 0%nat = Some b0 ∧ res ∈ b0) ∧
  (∀ (j : nat) b e, RadixHeap.buckets h' !! j = Some b → e ∈ b →
     ∃ b1, RadixHeap.buckets h !! j = Some b1 ∧ e ∈ b1).
Proof.
  unfold RadixHeap.take_back, vec_back, vec_pop_back.
  destruct (RadixHeap.buckets h !! 0%nat) as [b0|] eqn:Hb0; [|done].
  destruct (last b0) as [r|] eqn:Hlast; [|done].
  intros [= -> <-]. simpl. apply last_Some in Hlast as [b' ->].
  rewrite removelast_last. split_and!; try done.
  - by rewrite length_insert.
  - exists (b' ++ [res]). split; [done|]. apply elem_of_app. right. by left.
  - intros j b e Hj He. destruct (decide (j = 0%nat)) as [->|Hne].
    + rewrite list_lookup_insert_eq in Hj by by eapply lookup_lt_Some.
      injection Hj as <-. exists (b' ++ [res]). split; [done|].
      apply elem_of_app. by left.
    + rewrite list_lookup_insert_ne in Hj by done. by exists b.
Qed.

Lemma take_back_wf h res h' :
  heap_wf h → RadixHeap.take_back h = Ok (res, h') → heap_wf h'.
Proof.
  intros (Hlen & Hsz & Hl & Hks) Htb.
  pose proof (take_back_entries _ _ _ Htb) as Hperm.
  pose proof (take_back_fields _ _ _ Htb) as (Hl' & Hsz' & Hlen' & _ & _).
  rewrite Hperm in Hsz, Hks. apply Forall_cons in Hks as [_ Hks].
  split_and!; [congruence | simpl in Hsz; lia | congruence | done].
Qed.

Lemma take_back_bucket_inv h res h' :
  bucket_inv h → RadixHeap.take_back h = Ok (res, h') → bucket_inv h'.
Proof.
  intros Hinv Htb.
  pose proof (take_back_fields _ _ _ Htb) as (Hl' & _ & _ & _ & Hsub).
  intros j b e Hj He. destruct (Hsub j b e Hj He) as (b1 & Hb1 & He1).
  rewrite Hl'. by apply (Hinv j b1).
Qed.

Lemma take_back_key h res h' :
  heap_wf h → bucket_inv h → RadixHeap.take_back h = Ok (res, h') →
  res.1 = RadixHeap.last h.
Proof.
  intros Hwf Hinv Htb.
  pose proof (take_back_fields _ _ _ Htb) as (_ & _ & _ & (b0 & Hb0 & Hres) & _).
  pose proof (Hinv 0%nat b0 res Hb0 Hres) as Hidx.
  pose proof Hwf as (_ & _ & Hl & _).
  assert (is_uint64 res.1) as Hk by (eapply wf_key_uint64, entries_lookup; done).
  apply Z.lxor_eq.
  by apply (proj1 (bucket_index_zero_iff _ (lxor_uint64 _ _ Hk Hl))).
Qed.

(** [pop] on a well-formed heap that stores at least one pair. *)
Lemma pop_spec h :
  heap_wf h → bucket_inv h → entries h ≠ [] →
  ∃ res h',
    RadixHeap.pop h = Ok (res, h') ∧
    heap_wf h' ∧ bucket_inv h' ∧
    entries h ≡ₚ res :: entries h' ∧
    res.1 = RadixHeap.last h' ∧
    (keys_above_last h →
       keys_above_last h' ∧ Forall (λ e, res.1 ≤ e.1) (entries h)).
Proof.
  intros Hwf Hinv Hne. unfold RadixHeap.pop.
  assert (∃ h1, (if RadixHeap.bucket0_empty h then RadixHeap.relocate h
                 else Ok h) = Ok h1 ∧
            heap_wf h1 ∧ bucket_inv h1 ∧ entries h1 ≡ₚ entries h ∧
            RadixHeap.bucket0_empty h1 = false ∧
            (∃ b0, RadixHeap.buckets h1 !! 0%nat = Some b0) ∧
            (keys_above_last h → keys_above_last h1))
    as (h1 & -> & Hwf1 & Hinv1 & Hperm1 & Hb01 & [b0 Hb0] & Hab1).
  { destruct (RadixHeap.bucket0_empty h) eqn:Hb0.
    - destruct (relocate_spec h Hwf Hinv Hb0 Hne)
        as (i & items & h1 & Hrel & _ & _ & _ & _ & _ & _ & _ & _ & Hperm & _).
      exists h1. split; [done|].
      destruct (relocate_bucket0 h h1 Hwf Hinv Hb0 Hne Hrel)
        as (b0 & e & Hb0' & He & _).
      split_and!; eauto using relocate_wf, relocate_bucket_inv,
        relocate_keys_above.
      unfold RadixHeap.bucket0_empty. rewrite Hb0'.
      destruct b0; [by apply elem_of_nil in He | done].
    - exists h. split_and!; try done.
      destruct Hwf as (Hlen & _).
      destruct (lookup_lt_is_Some_2 (RadixHeap.buckets h) 0) as [b Hb]; [lia|].
      by exists b. }
  cbn [mbind outcome_bind].
  assert (b0 ≠ []) as Hb0ne.
  { intros ->. unfold RadixHeap.bucket0_empty in Hb01. by rewrite Hb0 in Hb01. }
  destruct (take_back_spec h1 b0 Hb0 Hb0ne) as (res & b' & -> & Htb).
  rewrite Htb. eexists res, _. split; [done|].
  pose proof (take_back_fields _ _ _ Htb) as (Hl' & _).
  split_and!.
  - by eapply take_back_wf.
  - by eapply take_back_bucket_inv.
  - rewrite <- Hperm1. by apply take_back_entries.
  - rewrite Hl'. by eapply take_back_key.
  - intros Hab. specialize (Hab1 Hab).
    pose proof (take_back_key _ _ _ Hwf1 Hinv1 Htb) as Hk.
    pose proof (take_back_entries _ _ _ Htb) as Hp.
    unfold keys_above_last in *. rewrite Hl'. rewrite Hp in Hab1.
    split; [by apply Forall_cons in Hab1 as [_ ?]|].
    rewrite <- Hperm1, Hp, Hk. done.
Qed.

Lemma entries_nil_buckets h (j : nat) b :
  entries h = [] → RadixHeap.buckets h !! j = Some b → b = [].
Proof.
  intros Hnil Hj. destruct b as [|e b]; [done|].
  assert (e ∈ entries h) as He by (eapply entries_lookup; [done | by left]).
  rewrite Hnil in He. by apply elem_of_nil in He.
Qed.

Lemma redistribute_no_throw (i : nat) nl items bs e :
  RadixHeap.redistribute i nl items bs ≠ Throw e.
Proof.
  revert bs. induction items as [|it items IH]; intros bs; simpl; [done|].
  case_decide; [done | apply IH].
Qed.

(** [relocate] throws exactly when no bucket beyond bucket 0 holds a
    pair. *)
Lemma relocate_throws_iff h :
  length (RadixHeap.buckets h) = 65%nat →
  RadixHeap.relocate h = Throw (logic_error "RadixHeap is empty") ↔
  ∀ (j : nat) b, (1 ≤ j)%nat → RadixHeap.buckets h !! j = Some b → b = [].
Proof.
  intros Hlen. unfold RadixHeap.relocate.
  pose proof (first_nonempty_spec 1 (drop 1 (RadixHeap.buckets h)))
    as (Hr & Hbelow & Hat).
  remember (RadixHeap.first_nonempty 1 (drop 1 (RadixHeap.buckets h)))
    as i eqn:Hi.
  rewrite length_drop, Hlen in Hr, Hat. rewrite Hlen.
  destruct (decide (i = 65%nat)) as [->|Hne].
  - split; [|done]. intros _ j b Hj Hb.
    pose proof (lookup_lt_Some _ _ _ Hb) as Hjlt. rewrite Hlen in Hjlt.
    specialize (Hbelow j ltac:(lia)). rewrite lookup_drop in Hbelow.
    replace (1 + (j - 1))%nat with j in Hbelow by lia. congruence.
  - destruct Hat as (b & Hb & Hbne); [lia|]. rewrite lookup_drop in Hb.
    replace (1 + (i - 1))%nat with i in Hb by lia. split.
    + rewrite Hb. destruct b as [|item0 rest]; [done|].
      cbv beta iota zeta.
      destruct (RadixHeap.redistribute _ _ _ _) eqn:Hred; try done.
      by apply redistribute_no_throw in Hred.
    + intros Hall. destruct Hbne. apply (Hall i); [lia | done].
Qed.

Lemma empty_iff_entries h :
  heap_wf h → RadixHeap.empty h = true ↔ entries h = [].
Proof.
  intros (_ & Hsz & _). unfold RadixHeap.empty. rewrite bool_decide_eq_true, Hsz.
  destruct (entries h); simpl; split; intros; (done || lia).
Qed.

Lemma pop_unfold_relocate h h1 :
  RadixHeap.bucket0_empty h = true → RadixHeap.relocate h = Ok h1 →
  RadixHeap.pop h = RadixHeap.take_back h1.
Proof. intros Hb0 Hrel. unfold RadixHeap.pop. by rewrite Hb0, Hrel. Qed.

Lemma pop_unfold_direct h :
  RadixHeap.bucket0_empty h = false → RadixHeap.pop h = RadixHeap.take_back h.
Proof. intros Hb0. unfold RadixHeap.pop. by rewrite Hb0. Qed.

Lemma relocate_ok_entries h h1 :
  heap_wf h → RadixHeap.relocate h = Ok h1 → entries h ≠ [].
Proof.
  intros (Hlen & _) Hrel Hnil.
  assert (RadixHeap.relocate h = Throw (logic_error "RadixHeap is empty")).
  { apply relocate_throws_iff; [done|]. intros j b _. by apply entries_nil_buckets. }
  congruence.
Qed.

Lemma run_ops_invariants ops h :
  heap_wf h → bucket_inv h → monotone_pushes ops h →
  Forall (λ h', heap_wf h' ∧ bucket_inv h') (run_ops ops h).
Proof.
  revert h. induction ops as [|[key value|] ops IH]; intros h Hwf Hinv Hmono.
  - constructor.
  - simpl in *. destruct Hmono as (Hk & Hle & Hmono).
    pose proof (push_wf key value h Hwf Hk).
    pose proof (push_bucket_inv key value h Hwf Hk Hinv).
    constructor; [done|]. by apply IH.
  - simpl in *. destruct (RadixHeap.bucket0_empty h) eqn:Hb0.
    + destruct (RadixHeap.relocate h) as [h1| | |] eqn:Hrel; try constructor.
      * pose proof (relocate_ok_entries h h1 Hwf Hrel) as Hne.
        split; [by eapply relocate_wf | by eapply relocate_bucket_inv].
      * pose proof (relocate_ok_entries h h1 Hwf Hrel) as Hne.
        rewrite (pop_unfold_relocate h h1 Hb0 Hrel) in Hmono.
        destruct (RadixHeap.take_back h1) as [[res h2]| | |] eqn:Htb;
          try constructor.
        -- split; [eapply take_back_wf; [|done]; by eapply relocate_wf|].
           eapply take_back_bucket_inv; [|done]. by eapply relocate_bucket_inv.
        -- apply IH; [| |done].
           ++ eapply take_back_wf; [|done]. by eapply relocate_wf.
           ++ eapply take_back_bucket_inv; [|done]. by eapply relocate_bucket_inv.
    + rewrite (pop_unfold_direct h Hb0) in Hmono.
      destruct (RadixHeap.take_back h) as [[res h2]| | |] eqn:Htb;
        try constructor.
      * split; [by eapply take_back_wf | by eapply take_back_bucket_inv].
      * apply IH; [by eapply take_back_wf | by eapply take_back_bucket_inv | done].
Qed.

(** C2. Along every sequence of [push] and [pop] on a fresh radix heap in
    which each pushed key is a 64-bit value not below the watermark at the
    time of the call, the bucket invariant holds after every [push], after
    every [relocate] and after every [pop]: each stored pair with key [k]
    is in bucket [bucket_index (k XOR last)]. Here [bucket_index 0 = 0],
    and for a 64-bit [d > 0], [bucket_index d] is the position of the
    highest set bit of [d], counted from 1. *)
Theorem radix_heap_bucket_invariant (ops : list heap_op) :
  monotone_pushes ops RadixHeap.new →
  Forall bucket_inv (run_ops ops RadixHeap.new) ∧
  RadixHeap.bucket_index 0 = 0 ∧
  ∀ d, 0 < d < two64 → RadixHeap.bucket_index d = Z.log2 d + 1.
Proof.
  intros Hmono. split; [|split].
  - eapply Forall_impl;
      [apply run_ops_invariants; [apply new_wf | apply new_bucket_inv | done]|].
    by intros h' [_ ?].
  - apply bucket_index_zero.
  - intros d Hd. apply bucket_index_log2; unfold is_uint64; lia.
Qed.

Lemma radix_heap_bucket_invariant_witness :
  Forall bucket_inv
    (run_ops [OpPush 5 1; OpPush 9 2; OpPop; OpPush 7 3; OpPop; OpPop; OpPop]
       RadixHeap.new).
Proof.
  apply radix_heap_bucket_invariant.
  vm_compute. repeat split; intros; discriminate.
Defined.

(** C6. A well-formed radix heap is empty exactly when it stores no pair;
    [pop] on an empty heap throws the logic error "RadixHeap is empty" and
    returns nothing; [relocate] throws it exactly when no bucket beyond
    bucket 0 holds a pair. *)
Theorem pop_empty_throws (h : RadixHeap.t) :
  heap_wf h →
  (RadixHeap.empty h = true ↔ entries h = []) ∧
  (RadixHeap.empty h = true →
     RadixHeap.pop h = Throw (logic_error "RadixHeap is empty")) ∧
  (RadixHeap.relocate h = Throw (logic_error "RadixHeap is empty") ↔
     ∀ (j : nat) b, (1 ≤ j)%nat → RadixHeap.buckets h !! j = Some b → b = []).
Proof.
  intros Hwf. pose proof Hwf as (Hlen & _).
  split; [by apply empty_iff_entries|].
  split; [|by apply relocate_throws_iff].
  intros Hempty. apply empty_iff_entries in Hempty; [|done].
  unfold RadixHeap.pop.
  destruct (lookup_lt_is_Some_2 (RadixHeap.buckets h) 0) as [b0 Hb0]; [lia|].
  pose proof (entries_nil_buckets h 0 b0 Hempty Hb0) as ->.
  unfold RadixHeap.bucket0_empty. rewrite Hb0.
  rewrite (proj2 (relocate_throws_iff h Hlen)); [done|].
  intros j b _. by apply entries_nil_buckets.
Qed.

Lemma pop_empty_throws_witness :
  RadixHeap.pop RadixHeap.new = Throw (logic_error "RadixHeap is empty").
Proof.
  apply (pop_empty_throws RadixHeap.new); [apply new_wf | reflexivity].
Defined.

(** C9. On a well-formed radix heap that satisfies the bucket invariant,
    whose bucket 0 is empty and which stores at least one pair, [relocate]
    returns; every pair of the lowest non-empty bucket [i > 0] ends in a
    bucket of strictly smaller index, and a pair of least key among them
    ends in bucket 0; bucket [i] is left empty; the stored pairs are the
    same up to order and the counter is unchanged. Consequently the removal
    from bucket 0 that [pop] performs next acts on a non-empty bucket, and
    [pop] returns. *)
Theorem relocate_safe (h : RadixHeap.t) :
  heap_wf h → bucket_inv h →
  RadixHeap.bucket0_empty h = true → entries h ≠ [] →
  ∃ (i : nat) items h',
    RadixHeap.relocate h = Ok h' ∧
    (1 ≤ i < 65)%nat ∧
    RadixHeap.buckets h !! i = Some items ∧ items ≠ [] ∧
    (∀ j, (j < i)%nat → RadixHeap.buckets h !! j = Some []) ∧
    Forall (λ it, ∃ (j : nat) b,
              (j < i)%nat ∧ RadixHeap.buckets h' !! j = Some b ∧ it ∈ b) items ∧
    (∃ b0 e, RadixHeap.buckets h' !! 0%nat = Some b0 ∧ e ∈ b0 ∧ e ∈ items ∧
             Forall (λ it, e.1 ≤ it.1) items) ∧
    RadixHeap.buckets h' !! i = Some [] ∧
    entries h' ≡ₚ entries h ∧
    RadixHeap.sz h' = RadixHeap.sz h ∧
    heap_wf h' ∧ bucket_inv h' ∧
    ∃ res h'', RadixHeap.take_back h' = Ok (res, h'') ∧
               RadixHeap.pop h = Ok (res, h'').
Proof.
  intros Hwf Hinv Hb0 Hne.
  destruct (relocate_spec h Hwf Hinv Hb0 Hne)
    as (i & items & h' & Hrel & Hi & Hitems & Hitems_ne & Hlow & Hlast & Hmin
        & Htgt & Hsz & Hperm & Hlk & Hlen').
  exists i, items, h'. split; [done|]. split; [done|]. split; [done|].
  split; [done|]. split; [done|].
  destruct (relocate_bucket0 h h' Hwf Hinv Hb0 Hne Hrel)
    as (b0 & e & Hb0' & He & Hekey).
  assert (e ∈ items) as Hein.
  { pose proof (Hlk 0%nat) as H0. rewrite decide_False in H0 by lia.
    rewrite (bucket0_empty_true _ Hb0), Hb0' in H0. injection H0 as ->.
    by apply list_elem_of_filter in He as [_ ?]. }
  split_and!.
  - apply Forall_forall. intros it Hit.
    pose proof (proj1 (Forall_forall _ _) Htgt it Hit) as Ht. simpl in Ht.
    exists (target (RadixHeap.last h') it). eexists. split; [done|].
    rewrite Hlk, decide_False, (Hlow _ Ht) by lia. split; [done|].
    simpl. by apply list_elem_of_filter.
  - exists b0, e. by rewrite Hekey.
  - by rewrite Hlk, decide_True.
  - done.
  - done.
  - by eapply relocate_wf.
  - by eapply relocate_bucket_inv.
  - assert (b0 ≠ []) as Hb0ne by (intros ->; by apply elem_of_nil in He).
    destruct (take_back_spec h' b0 Hb0' Hb0ne) as (res & b' & _ & Htb).
    eexists res, _. split; [done|].
    by rewrite (pop_unfold_relocate h h' Hb0 Hrel).
Qed.

Lemma relocate_safe_witness :
  ∃ res h'',
    RadixHeap.pop (RadixHeap.push 9 2 (RadixHeap.push 12 1 RadixHeap.new))
    = Ok (res, h'').
Proof.
  destruct (relocate_safe
              (RadixHeap.push 9 2 (RadixHeap.push 12 1 RadixHeap.new)))
    as (i & items & h' & _ & _ & _ & _ & _ & _ & _ & _ & _ & _ & _ & _
        & res & h'' & _ & Hpop).
  - apply push_wf; [apply push_wf; [apply new_wf|]|]; unfold is_uint64, two64; lia.
  - apply push_bucket_inv;
      [apply push_wf; [apply new_wf|] | | apply push_bucket_inv;
        [apply new_wf | | apply new_bucket_inv]];
      unfold is_uint64, two64; lia.
  - reflexivity.
  - discriminate.
  - by exists res, h''.
Defined.

(** ** Reading the graph *)

Section ReadGraphFacts.
Variable extract : string → option (Z * Z * Z).

Lemma read_lines_skipped lines edges m :
  Forall (λ l, skipped l = true) lines →
  read_lines extract lines edges m = Ok (edges, m).
Proof.
  induction 1 as [|l lines Hl _ IH]; simpl; [done|]. by rewrite Hl.
Qed.

Lemma read_lines_inv lines edges m edges' m' :
  read_inv edges m →
  read_lines extract lines edges m = Ok (edges', m') →
  read_inv edges' m'.
Proof.
  revert edges m. induction lines as [|l lines IH]; intros edges m Hinv Hr.
  - simpl in Hr. by injection Hr as <- <-.
  - simpl in Hr. destruct (skipped l); [by eapply IH|].
    destruct (extract l) as [[[from to_] w]|]; [|done].
    case_bool_decide as Hneg; [done|].
    case_bool_decide as Hw; [done|].
    eapply IH; [|done]. destruct Hinv as [Hall Hne]. split.
    + apply Forall_app. split.
      * eapply Forall_impl; [done|]. intros e He. simpl in He. lia.
      * constructor; [simpl; lia | constructor].
    + intros _. by destruct edges.
Qed.

Lemma edge_count_alter_snoc (g : Graph) (i : nat) x :
  (i < length g)%nat →
  edge_count (alter (λ es, es ++ [x]) i g) = S (edge_count g).
Proof.
  revert i. induction g as [|es g IH]; intros [|i] Hi; simpl in *; try lia.
  - rewrite length_app. simpl. lia.
  - change (list_alter ?f i g) with (alter f i g). rewrite IH by lia. lia.
Qed.

Lemma edge_count_fold_add_edge edges (g : Graph) :
  Forall (λ e : Z * Z * Z, 0 ≤ e.1.1 < Z.of_nat (length g)) edges →
  edge_count (fold_left add_edge edges g) = (length edges + edge_count g)%nat.
Proof.
  revert g. induction edges as [|[[from to_] w] edges IH]; intros g Hall.
  - done.
  - apply Forall_cons in Hall as [Hin Hall]. simpl in *.
    rewrite IH.
    + rewrite edge_count_alter_snoc by lia. lia.
    + eapply Forall_impl; [done|]. intros e He. simpl in He.
      by rewrite length_alter.
Qed.

Lemma edge_count_replicate n : edge_count (replicate n []) = 0%nat.
Proof. induction n as [|n IH]; [done|]. simpl. by rewrite IH. Qed.

Lemma read_graph_edge_count path lines loaded :
  read_graph_from_file extract path (Some lines) = Ok loaded →
  graph loaded = [] ∨ (1 ≤ edge_count (graph loaded))%nat.
Proof.
  unfold read_graph_from_file.
  destruct (read_lines extract lines [] (-1)) as [[edges m]| | |] eqn:Hr;
    try done.
  simpl. case_bool_decide as Hm.
  - intros [= <-]. by left.
  - intros [= <-]. right. simpl.
    destruct (read_lines_inv lines [] (-1) edges m) as [Hall Hne];
      [split; [constructor | lia] | done |].
    unfold build_graph. rewrite edge_count_fold_add_edge.
    + destruct edges; [exfalso; apply Hne; [lia | done] | simpl; lia].
    + eapply Forall_impl; [done|]. intros e He. simpl in He.
      rewrite length_replicate. lia.
Qed.
End ReadGraphFacts.

(** C10. When every line of the input is blank or starts with '#', no edge
    is read: [read_graph_from_file] returns the empty load result, and the
    driver throws "Input graph is empty; provide at least one edge." and
    exits with status 1 whatever the fuel given to the two algorithms, so
    neither of them is run. Hence a loaded graph that reaches the
    algorithms has at least one edge, and the single-node graph without
    edges is never loaded. *)
Theorem empty_input_rejected (extract : string → option (Z * Z * Z))
    (path : string) (lines : list string) :
  (Forall (λ l, skipped l = true) lines →
     read_graph_from_file extract path (Some lines) = Ok GraphLoadResult_default ∧
     ∀ fuel source runs,
       main_try extract fuel path (Some lines) source runs
         = Throw (runtime_error empty_graph_msg) ∧
       main extract fuel path (Some lines) source runs = Ok 1) ∧
  (∀ loaded,
     read_graph_from_file extract path (Some lines) = Ok loaded →
     (graph loaded ≠ [] → (1 ≤ edge_count (graph loaded))%nat) ∧
     graph loaded ≠ [[]]).
Proof.
  split.
  - intros Hskip.
    assert (read_graph_from_file extract path (Some lines)
            = Ok GraphLoadResult_default) as Hread.
    { unfold read_graph_from_file. by rewrite read_lines_skipped. }
    split; [done|]. intros fuel source runs.
    unfold main, main_try. by rewrite Hread.
  - intros loaded Hread.
    destruct (read_graph_edge_count extract path lines loaded Hread)
      as [Hnil|Hcount].
    + split; [done | by rewrite Hnil].
    + split; [done|]. intros Heq. rewrite Heq in Hcount. simpl in Hcount. lia.
Qed.

Lemma empty_input_rejected_witness :
  main (λ _, None) 0 "graph.txt" (Some ["# nodes"; ""; "#"]) 0 1 = Ok 1.
Proof.
  apply (empty_input_rejected (λ _, None) "graph.txt" ["# nodes"; ""; "#"]).
  repeat constructor.
Defined.

(** ** The two queues meet the contract *)

Lemma least_spec (x : Z * Z) (l : list (Z * Z)) :
  BinaryHeap.least x l ∈ x :: l ∧
  Forall (λ y, (BinaryHeap.least x l).1 ≤ y.1) (x :: l).
Proof.
  revert x. induction l as [|y l IH]; intros x; simpl.
  - split; [by left | by repeat constructor].
  - specialize (IH (if BinaryHeap.pair_lt y x then y else x)).
    destruct (BinaryHeap.pair_lt y x) eqn:Hlt; unfold BinaryHeap.pair_lt in Hlt;
      destruct IH as [Hin Hall]; apply Forall_cons in Hall as [Hm Hall].
    + split.
      * apply elem_of_cons in Hin as [->|Hin]; [right; by left | right; by right].
      * constructor; [|by constructor].
        apply orb_true_iff in Hlt as [?%Z.ltb_lt|[?%Z.eqb_eq _]%andb_true_iff]; lia.
    + split.
      * apply elem_of_cons in Hin as [->|Hin]; [by left | right; by right].
      * constructor; [done|]. constructor; [|done].
        apply orb_false_iff in Hlt as [?%Z.ltb_ge _]. lia.
Qed.

Lemma remove_one_perm (x : Z * Z) (l : list (Z * Z)) :
  x ∈ l → l ≡ₚ x :: BinaryHeap.remove_one x l.
Proof.
  induction l as [|y l IH]; intros Hin; [by apply elem_of_nil in Hin|].
  simpl. case_decide as Hy; [by subst|].
  apply elem_of_cons in Hin as [->|Hin]; [done|].
  etrans; [apply Permutation_skip, (IH Hin) | apply Permutation_swap].
Qed.

#[global] Program Instance binary_heap_spec : PriorityQueueSpec BinaryHeap.t := {|
  pq_inv := λ _, True;
  pq_elems := λ q, q;
  pq_low := λ _, 0
|}.
Next Obligation. done. Qed.
Next Obligation. done. Qed.
Next Obligation. done. Qed.
Next Obligation.
  intros q _. simpl. unfold BinaryHeap.empty. by rewrite bool_decide_eq_true.
Qed.
Next Obligation.
  intros q key value _ _ _. simpl. unfold BinaryHeap.push.
  split; [done|]. split; [|done]. symmetry. apply Permutation_cons_append.
Qed.
Next Obligation.
  intros q _ Hne Hlow. simpl in *. destruct q as [|x l]; [done|].
  destruct (least_spec x l) as [Hin Hall].
  eexists _, _. split; [reflexivity|]. split; [done|].
  split; [by apply remove_one_perm|]. split; [done|].
  by apply (proj1 (Forall_forall _ _) Hlow).
Qed.

#[global] Program Instance radix_heap_spec : PriorityQueueSpec RadixHeap.t := {|
  pq_inv := radix_inv;
  pq_elems := entries;
  pq_low := RadixHeap.last
|}.
Next Obligation.
  split; [apply new_wf|]. split; [apply new_bucket_inv | apply new_keys_above].
Qed.
Next Obligation. done. Qed.
Next Obligation. done. Qed.
Next Obligation.
  intros h (Hwf & _). by apply empty_iff_entries.
Qed.
Next Obligation.
  intros h key value (Hwf & Hinv & Hab) Hk Hle. simpl.
  split; [|split; [by apply push_entries | done]].
  split; [by apply push_wf|].
  split; [by apply push_bucket_inv | by apply push_keys_above].
Qed.
Next Obligation.
  intros h (Hwf & Hinv & Hab) Hne _. simpl in *.
  destruct (pop_spec h Hwf Hinv Hne)
    as (res & h' & Hpop & Hwf' & Hinv' & Hperm & Hkey & Hmin).
  destruct (Hmin Hab) as [Hab' Hall].
  exists res, h'. split; [done|]. split; [done|]. split; [done|].
  split; [done | lia].
Qed.

(** ** Vectors indexed by [int] *)

Section zlookup.
Context {A : Type}.
Implicit Types (v : list A) (i j : Z).

Lemma zlookup_Some_range v i x :
  zlookup v i = Some x → 0 ≤ i < Z.of_nat (length v).
Proof.
  unfold zlookup. case_bool_decide; [|done].
  intros Hl%lookup_lt_Some. lia.
Qed.

Lemma zlookup_in_range v i :
  0 ≤ i < Z.of_nat (length v) → ∃ x, zlookup v i = Some x.
Proof.
  intros Hi. unfold zlookup. rewrite bool_decide_true by lia.
  destruct (lookup_lt_is_Some_2 v (Z.to_nat i)) as [x Hx]; [lia|]. by exists x.
Qed.

Lemma zlookup_elem_of v i x : zlookup v i = Some x → x ∈ v.
Proof.
  unfold zlookup. case_bool_decide; [|done]. apply list_elem_of_lookup_2.
Qed.

Lemma vec_get_Ok v i x : zlookup v i = Some x → vec_get v i = Ok x.
Proof. unfold vec_get. by intros ->. Qed.

Lemma zlookup_vec_set_eq v i x :
  0 ≤ i < Z.of_nat (length v) → zlookup (vec_set v i x) i = Some x.
Proof.
  intros Hi. unfold zlookup, vec_set. rewrite bool_decide_true by lia.
  apply list_lookup_insert_eq. lia.
Qed.

Lemma zlookup_vec_set_ne v i j x :
  0 ≤ i → i ≠ j → zlookup (vec_set v i x) j = zlookup v j.
Proof.
  intros Hi Hne. unfold zlookup, vec_set. case_bool_decide; [|done].
  apply list_lookup_insert_ne. lia.
Qed.

Lemma zlookup_app_l v v' i :
  i < Z.of_nat (length v) → zlookup (v ++ v') i = zlookup v i.
Proof.
  intros Hi. unfold zlookup. case_bool_decide; [|done].
  apply lookup_app_l. lia.
Qed.

Lemma zlookup_app_length v x : zlookup (v ++ [x]) (Z.of_nat (length v)) = Some x.
Proof.
  unfold zlookup. rewrite bool_decide_true by lia.
  rewrite Nat2Z.id. by rewrite lookup_app_r, Nat.sub_diag.
Qed.
End zlookup.

(** ** Sums over nodes *)

Lemma out_weight_nonneg (es : list Edge) :
  (∀ e, e ∈ es → 0 ≤ weight e) → 0 ≤ out_weight es.
Proof.
  induction es as [|e es IH]; intros Hall; simpl; [done|].
  pose proof (Hall e ltac:(by left)).
  assert (0 ≤ out_weight es) by (apply IH; intros; apply Hall; by right). lia.
Qed.

Lemma out_weight_elem (es : list Edge) (e : Edge) :
  (∀ e, e ∈ es → 0 ≤ weight e) → e ∈ es → weight e ≤ out_weight es.
Proof.
  induction es as [|e' es IH]; intros Hall Hin; [by apply elem_of_nil in Hin|].
  simpl. pose proof (Hall e' ltac:(by left)).
  assert (0 ≤ out_weight es).
  { apply out_weight_nonneg. intros; apply Hall; by right. }
  apply elem_of_cons in Hin as [->|Hin]; [lia|].
  assert (weight e ≤ out_weight es); [|lia].
  apply IH; [|done]. intros; apply Hall; by right.
Qed.

Lemma out_degree_nonneg (es : list Edge) : 0 ≤ out_degree es.
Proof. unfold out_degree. lia. Qed.

Lemma edge_count_graph_sum (g : Graph) :
  Z.of_nat (edge_count g) = graph_sum out_degree g.
Proof.
  induction g as [|es g IH]; [done|]. simpl. unfold out_degree at 1. lia.
Qed.

Section sums.
Variable f : list Edge → Z.

Lemma graph_sum_app g g' : graph_sum f (g ++ g') = graph_sum f g + graph_sum f g'.
Proof. induction g as [|es g IH]; simpl; lia. Qed.

Lemma nodes_sum_perm g D D' : D ≡ₚ D' → nodes_sum f g D = nodes_sum f g D'.
Proof. induction 1; simpl; lia. Qed.

Lemma nodes_sum_app_l g g' D :
  (∀ u, u ∈ D → u < Z.of_nat (length g)) →
  nodes_sum f (g ++ g') D = nodes_sum f g D.
Proof.
  induction D as [|u D IH]; intros Hall; simpl; [done|].
  rewrite zlookup_app_l by (apply Hall; by left).
  rewrite IH; [done|]. intros; apply Hall; by right.
Qed.

(** The sum over distinct nodes of the graph is at most the sum over all
    its nodes. *)
Lemma nodes_sum_le g D :
  (∀ es, es ∈ g → 0 ≤ f es) →
  NoDup D → (∀ u, u ∈ D → 0 ≤ u < Z.of_nat (length g)) →
  nodes_sum f g D ≤ graph_sum f g.
Proof.
  revert D. induction g as [|es g IH] using rev_ind; intros D Hf Hnd Hr.
  - destruct D as [|u D]; [done|]. specialize (Hr u ltac:(by left)).
    simpl in Hr. lia.
  - rewrite graph_sum_app. simpl.
    assert (Z.of_nat (length (g ++ [es])) = Z.of_nat (length g) + 1) as Hlen
      by (rewrite List.length_app; simpl; lia).
    assert (∀ es', es' ∈ g → 0 ≤ f es') as Hf'.
    { intros es' Hes'. apply Hf, elem_of_app. by left. }
    assert (0 ≤ f es) as Hfes.
    { apply Hf, elem_of_app. right. by left. }
    destruct (decide (Z.of_nat (length g) ∈ D)) as [Hin|Hnin].
    + apply elem_of_Permutation in Hin as [D' HD'].
      rewrite (nodes_sum_perm _ _ _ HD'). rewrite HD' in Hnd.
      apply NoDup_cons in Hnd as [Hnin Hnd]. simpl.
      rewrite zlookup_app_length. simpl.
      assert (∀ u, u ∈ D' → 0 ≤ u < Z.of_nat (length g)) as Hr'.
      { intros u Hu. specialize (Hr u ltac:(rewrite HD'; by right)).
        assert (u ≠ Z.of_nat (length g)) by (by intros ->). lia. }
      rewrite nodes_sum_app_l by (intros; by apply Hr').
      specialize (IH D' Hf' Hnd Hr'). lia.
    + assert (∀ u, u ∈ D → 0 ≤ u < Z.of_nat (length g)) as Hr'.
      { intros u Hu. specialize (Hr u Hu).
        assert (u ≠ Z.of_nat (length g)) by (by intros ->). lia. }
      rewrite nodes_sum_app_l by (intros; by apply Hr').
      specialize (IH D Hf' Hnd Hr'). lia.
Qed.
End sums.

Lemma wf_graph_out_weight_nonneg (g : Graph) es :
  wf_graph g → es ∈ g → 0 ≤ out_weight es.
Proof.
  intros Hwf [i Hi]%list_elem_of_lookup_1. apply out_weight_nonneg.
  intros e He. destruct (Hwf (Z.of_nat i) es e) as [_ [? _]]; [|done|done].
  unfold zlookup. rewrite bool_decide_true by lia. by rewrite Nat2Z.id.
Qed.

(** ** Correctness of the relaxation loop over any queue that meets the
    contract *)

Section Correctness.
Context {Q : Type} `{PriorityQueueSpec Q}.
Variables (g : Graph) (s : Z).
Hypothesis g_wf : wf_graph g.
Hypothesis g_bound : total_weight g < two64.

Lemma tight_decrease dist x e v dv nd :
  tight dist x e → x ≠ v → zlookup dist v = Some dv → nd ≤ dv →
  tight (vec_set dist v nd) x e.
Proof.
  intros (dx & dy & Hx & Hy & Hle) Hne Hdv Hnd.
  pose proof (zlookup_Some_range _ _ _ Hdv) as Hv.
  destruct (decide (to e = v)) as [Heq|Hne'].
  - exists dx, nd. rewrite zlookup_vec_set_ne by (done || lia).
    rewrite Heq, zlookup_vec_set_eq by done.
    split; [done|]. split; [done|]. rewrite Heq in Hy. simplify_eq. lia.
  - exists dx, dy. rewrite !zlookup_vec_set_ne by (done || lia). done.
Qed.

Lemma done_in_range L D st u :
  sssp_inv g s L D st → u ∈ D → 0 ≤ u < Z.of_nat (length g).
Proof.
  intros Hinv Hu. destruct (inv_done _ _ _ _ _ Hinv u Hu) as (du & Hdu & _).
  rewrite <- (inv_len _ _ _ _ _ Hinv). by eapply zlookup_Some_range.
Qed.

Lemma edge_weight_nonneg u es e :
  zlookup g u = Some es → e ∈ es → 0 ≤ weight e.
Proof. intros Hu He. by destruct (g_wf u es e Hu He) as [_ [? _]]. Qed.

Lemma done_weight_bound L D st :
  sssp_inv g s L D st → nodes_sum out_weight g D < two64.
Proof.
  intros Hinv. eapply Z.le_lt_trans; [|exact g_bound].
  apply nodes_sum_le.
  - intros es Hes. by apply (wf_graph_out_weight_nonneg g).
  - by destruct Hinv.
  - intros u Hu. by eapply done_in_range.
Qed.

Lemma done_degree_bound L D st :
  sssp_inv g s L D st → nodes_sum out_degree g D ≤ graph_sum out_degree g.
Proof.
  intros Hinv. apply nodes_sum_le.
  - intros es _. apply out_degree_nonneg.
  - by destruct Hinv.
  - intros u Hu. by eapply done_in_range.
Qed.
(** One edge relaxed with an update: the invariant of the inner loop is
    kept. [u] is the node under relaxation, [d] its distance. *)
Lemma relax_update_inv u d D dist q log e es dv :
  sssp_inv g s d (u :: D) (mkState dist q log) →
  zlookup dist u = Some d →
  d ≤ nodes_sum out_weight g D →
  zlookup g u = Some es → e ∈ es →
  zlookup dist (to e) = Some dv →
  d + weight e < dv →
  sssp_inv g s d (u :: D)
    (mkState (vec_set dist (to e) (d + weight e))
             (pq_push (d + weight e) (to e) q)
             (CallPush q (d + weight e) (to e) :: log)).
Proof.
  intros [Hpq Hlen Hrange Hsrc Hlow HL Hel Hnd HDnd Hdone Hreach Hlog]
    Hdu Hd Hes He Hdv Hlt.
  simpl in *.
  pose proof (edge_weight_nonneg u es e Hes He) as Hw.
  pose proof (zlookup_Some_range _ _ _ Hdv) as Hv.
  assert (0 ≤ dv ≤ UINT64_MAX) as Hdvr.
  { apply (proj1 (Forall_forall _ _) Hrange). by eapply zlookup_elem_of. }
  set (nd := d + weight e) in *.
  assert (is_uint64 nd) as Hnd64 by (unfold is_uint64, UINT64_MAX in *; lia).
  destruct (pq_push_spec q nd (to e) Hpq Hnd64 ltac:(lia))
    as (Hpq' & Hperm & Hlow').
  assert (to e ∉ u :: D) as Hnot.
  { intros Hin. destruct (Hdone _ Hin) as (dx & Hdx & Hle & _).
    simplify_eq. lia. }
  assert (∀ x, x ∈ u :: D → zlookup (vec_set dist (to e) nd) x = zlookup dist x)
    as Hsame.
  { intros x Hx. apply zlookup_vec_set_ne; [lia|]. by intros <-. }
  constructor; simpl.
  - done.
  - unfold vec_set. by rewrite length_insert.
  - unfold vec_set. apply Forall_insert; [done|]. lia.
  - destruct (decide (to e = s)) as [Heq|Hne].
    + rewrite Heq in Hdv. simplify_eq. lia.
    + rewrite zlookup_vec_set_ne by (done || lia). done.
  - lia.
  - done.
  - intros k v Hkv. rewrite Hperm in Hkv.
    apply elem_of_cons in Hkv as [[= -> ->]|Hkv].
    + split; [lia|]. exists nd. by rewrite zlookup_vec_set_eq.
    + destruct (Hel k v Hkv) as (Hk & dx & Hdx & Hle). split; [done|].
      destruct (decide (to e = v)) as [<-|Hne].
      * exists nd. rewrite zlookup_vec_set_eq by done.
        split; [done|]. simplify_eq. lia.
      * exists dx. by rewrite zlookup_vec_set_ne by (done || lia).
  - rewrite Hperm. apply NoDup_cons. split; [|done].
    intros Hin. destruct (Hel _ _ Hin) as (_ & dx & Hdx & Hle).
    simplify_eq. lia.
  - done.
  - intros x Hx. destruct (Hdone x Hx) as (dx & Hdx & Hle & Hnin).
    exists dx. rewrite (Hsame x Hx). split; [done|]. split; [done|].
    rewrite Hperm. intros [[= _ ->]|Hin]%elem_of_cons; done.
  - intros v dx Hv' Hdx.
    destruct (decide (to e = v)) as [<-|Hne].
    + rewrite zlookup_vec_set_eq in Hv' by done. simplify_eq.
      split; [right; rewrite Hperm; by left|].
      split.
      * rewrite Hes. simpl.
        pose proof (out_weight_elem es e) as Hwe.
        specialize (Hwe ltac:(intros; by eapply edge_weight_nonneg) He).
        lia.
      * destruct (Hreach u d Hdu ltac:(lia)) as (_ & _ & Hwalk).
        by eapply walk_step.
    + rewrite zlookup_vec_set_ne in Hv' by (done || lia).
      destruct (Hreach v dx Hv' Hdx) as (Hin & Hb & Hwalk).
      split; [|done]. destruct Hin as [?|Hin]; [by left|].
      right. rewrite Hperm. by right.
  - constructor; [simpl; lia | done].
Qed.

Lemma relax_edges_spec u d D rest : ∀ pre st,
  zlookup g u = Some (pre ++ rest) →
  sssp_inv g s d (u :: D) st →
  relaxed g (st_dist st) D →
  zlookup (st_dist st) u = Some d →
  d ≤ nodes_sum out_weight g D →
  (∀ e, e ∈ pre → tight (st_dist st) u e) →
  ∃ st',
    relax_edges d rest st = Ok st' ∧
    sssp_inv g s d (u :: D) st' ∧
    relaxed g (st_dist st') D ∧
    (∀ e, e ∈ pre ++ rest → tight (st_dist st') u e) ∧
    (length (pq_elems (st_pq st'))
       ≤ length (pq_elems (st_pq st)) + length rest)%nat.
Proof.
  induction rest as [|e rest IH]; intros pre [dist q log] Hes Hinv Hrel Hdu Hd Hpre.
  - exists (mkState dist q log). rewrite app_nil_r.
    split; [done|]. split; [done|]. split; [done|]. split; [done|]. simpl. lia.
  - simpl in *.
    assert (e ∈ pre ++ e :: rest) as He by (apply elem_of_app; right; by left).
    destruct (g_wf u _ e Hes He) as [Hto [Hw _]].
    rewrite <- (inv_len _ _ _ _ _ Hinv) in Hto. simpl in Hto.
    destruct (zlookup_in_range dist (to e) Hto) as [dv Hdv].
    pose proof (inv_L _ _ _ _ _ Hinv) as HL.
    pose proof (done_weight_bound _ _ _ Hinv) as Hb. simpl in Hb.
    rewrite Hes in Hb. simpl in Hb.
    pose proof (out_weight_elem (pre ++ e :: rest) e
      ltac:(intros; by eapply edge_weight_nonneg) He) as Hwe.
    assert (add64 d (weight e) = d + weight e) as Hadd.
    { unfold add64. apply Z.mod_small. lia. }
    rewrite Hadd, (vec_get_Ok _ _ _ Hdv). cbn [mbind outcome_bind].
    assert (pre ++ e :: rest = (pre ++ [e]) ++ rest) as Happ
      by (by rewrite <- (assoc_L (++))).
    rewrite Happ in Hes.
    case_bool_decide as Hlt.
    + pose proof (relax_update_inv u d D dist q log e _ dv Hinv Hdu Hd Hes
        ltac:(apply elem_of_app; left; apply elem_of_app; right; by left)
        Hdv Hlt) as Hinv1.
      assert (to e ∉ u :: D) as Hnot.
      { intros Hin.
        destruct (inv_done _ _ _ _ _ Hinv _ Hin) as (dx & Hdx & Hle & _).
        simpl in *. simplify_eq. lia. }
      destruct (IH (pre ++ [e]) _ Hes Hinv1) as (st' & Hr & Hinv' & Hrel' & Ht & Hlen).
      * simpl. intros x es' e' Hx Hes' He'.
        eapply tight_decrease; [by eapply Hrel | | done | lia].
        intros ->. apply Hnot. by right.
      * simpl. rewrite zlookup_vec_set_ne; [done|lia|].
        intros Heq. apply Hnot. rewrite Heq. by left.
      * done.
      * simpl. intros e' [He'|He']%elem_of_app.
        -- eapply tight_decrease; [by apply Hpre | | done | lia].
           intros ->. apply Hnot. by left.
        -- apply list_elem_of_singleton in He' as ->.
           exists d, (d + weight e).
           rewrite zlookup_vec_set_ne, zlookup_vec_set_eq; [done|done|lia|].
           intros Heq. apply Hnot. rewrite Heq. by left.
      * exists st'. split; [done|]. split; [done|]. split; [done|].
        split; [by rewrite Happ|]. simpl in Hlen.
        destruct (pq_push_spec q (d + weight e) (to e)) as (_ & Hperm & _).
        { by destruct Hinv. }
        { pose proof (proj1 (Forall_forall _ _) (inv_range _ _ _ _ _ Hinv) dv
            (zlookup_elem_of _ _ _ Hdv)) as Hr'.
          unfold is_uint64, UINT64_MAX in *. simpl in Hr'. lia. }
        { pose proof (inv_low _ _ _ _ _ Hinv). simpl in *. lia. }
        rewrite Hperm in Hlen. simpl in Hlen. lia.
    + destruct (IH (pre ++ [e]) _ Hes Hinv Hrel Hdu Hd) as (st' & Hr & Hinv' & Hrel' & Ht & Hlen).
      * intros e' [He'|He']%elem_of_app; [by apply Hpre|].
        apply list_elem_of_singleton in He' as ->.
        exists d, dv. split; [done|]. split; [done|]. lia.
      * exists st'. split; [done|]. split; [done|]. split; [done|].
        split; [by rewrite Happ|]. simpl in Hlen. lia.
Qed.
(** A [pop] that returns a stale pair. *)
Lemma pop_stale_inv L D dist q log d u q' du :
  sssp_inv g s L D (mkState dist q log) →
  pq_inv q' → pq_elems q ≡ₚ (d, u) :: pq_elems q' →
  Forall (λ e, d ≤ e.1) (pq_elems q) → pq_low q' ≤ d →
  zlookup dist u = Some du → d ≠ du →
  sssp_inv g s d D (mkState dist q' (CallPop q :: log)).
Proof.
  intros [Hpq Hlen Hrange Hsrc Hlow HL Hel Hnd HDnd Hdone Hreach Hlog]
    Hpq' Hperm Hmin Hlow' Hdu Hne.
  simpl in *.
  destruct (Hel d u ltac:(rewrite Hperm; by left)) as (Hd & _).
  constructor; simpl; try done.
  - lia.
  - intros k v Hkv.
    assert ((k, v) ∈ pq_elems q) as Hin by (rewrite Hperm; by right).
    destruct (Hel k v Hin) as (Hk & Hdv). split; [|done].
    pose proof (proj1 (Forall_forall _ _) Hmin _ Hin). simpl in *. lia.
  - rewrite Hperm in Hnd. by apply NoDup_cons in Hnd as [_ ?].
  - intros x Hx. destruct (Hdone x Hx) as (dx & Hdx & Hle & Hnin).
    exists dx. split; [done|]. split; [lia|].
    intros Hin. apply Hnin. rewrite Hperm. by right.
  - intros v dv Hv Hdv. destruct (Hreach v dv Hv Hdv) as (Hin & Hb).
    split; [|done]. destruct Hin as [?|Hin]; [by left|].
    rewrite Hperm in Hin. apply elem_of_cons in Hin as [[= -> ->]|Hin].
    + simplify_eq.
    + by right.
  - by constructor.
Qed.

(** A [pop] that returns the current distance of its node. *)
Lemma pop_fresh_inv L D dist q log d u q' :
  sssp_inv g s L D (mkState dist q log) →
  pq_inv q' → pq_elems q ≡ₚ (d, u) :: pq_elems q' →
  Forall (λ e, d ≤ e.1) (pq_elems q) → pq_low q' ≤ d →
  zlookup dist u = Some d →
  sssp_inv g s d (u :: D) (mkState dist q' (CallPop q :: log)) ∧
  d ≤ nodes_sum out_weight g D.
Proof.
  intros [Hpq Hlen Hrange Hsrc Hlow HL Hel Hnd HDnd Hdone Hreach Hlog]
    Hpq' Hperm Hmin Hlow' Hdu.
  simpl in *.
  destruct (Hel d u ltac:(rewrite Hperm; by left)) as (Hd & _).
  rewrite Hperm in Hnd. apply NoDup_cons in Hnd as [Hfresh Hnd].
  assert (u ∉ D) as HuD.
  { intros Hin. destruct (Hdone u Hin) as (dx & Hdx & _ & Hnin).
    simplify_eq. apply Hnin. rewrite Hperm. by left. }
  assert (0 ≤ out_weight (default [] (zlookup g u))) as Hwu.
  { destruct (zlookup g u) as [es|] eqn:Hes; [|done]. simpl.
    apply out_weight_nonneg. intros e He. by eapply edge_weight_nonneg. }
  split; [|by destruct (Hreach u d Hdu ltac:(lia)) as (_ & ? & _)].
  constructor; simpl; try done.
  - lia.
  - intros k v Hkv.
    assert ((k, v) ∈ pq_elems q) as Hin by (rewrite Hperm; by right).
    destruct (Hel k v Hin) as (Hk & Hdv). split; [|done].
    pose proof (proj1 (Forall_forall _ _) Hmin _ Hin). simpl in *. lia.
  - by apply NoDup_cons.
  - intros x [->|Hx]%elem_of_cons.
    + exists d. split; [done|]. split; [lia | done].
    + destruct (Hdone x Hx) as (dx & Hdx & Hle & Hnin).
      exists dx. split; [done|]. split; [lia|].
      intros Hin. apply Hnin. rewrite Hperm. by right.
  - intros v dv Hv Hdv. destruct (Hreach v dv Hv Hdv) as (Hin & Hb & Hwalk).
    split; [|split; [lia | done]].
    destruct Hin as [?|Hin]; [left; by right|].
    rewrite Hperm in Hin. apply elem_of_cons in Hin as [[= -> ->]|Hin].
    + left. by left.
    + by right.
  - by constructor.
Qed.

Lemma sssp_loop_spec fuel : ∀ st L D,
  sssp_inv g s L D st → relaxed g (st_dist st) D →
  Z.of_nat (length (pq_elems (st_pq st)))
    + graph_sum out_degree g - nodes_sum out_degree g D < Z.of_nat fuel →
  ∃ st' L' D',
    sssp_loop fuel g st = Ok st' ∧
    sssp_inv g s L' D' st' ∧ relaxed g (st_dist st') D' ∧
    pq_elems (st_pq st') = [].
Proof.
  induction fuel as [|fuel IH]; intros [dist q log] L D Hinv Hrel Hfuel.
  { pose proof (done_degree_bound _ _ _ Hinv). simpl in *. lia. }
  simpl in *. destruct (pq_empty q) eqn:Hempty.
  { exists (mkState dist q log), L, D. split; [done|]. split; [done|].
    split; [done|]. simpl. apply pq_empty_elems; [by destruct Hinv | done]. }
  assert (pq_elems q ≠ []) as Hne.
  { intros Hnil. apply pq_empty_elems in Hnil; [congruence | by destruct Hinv]. }
  destruct (pq_pop_spec q) as ([d u] & q' & Hpop & Hpq' & Hperm & Hmin & Hlow').
  { by destruct Hinv. }
  { done. }
  { apply Forall_forall. intros [k v] Hkv.
    destruct (inv_elems _ _ _ _ _ Hinv k v Hkv) as [Hk _].
    pose proof (inv_low _ _ _ _ _ Hinv). simpl in *. lia. }
  simpl in Hlow'. rewrite Hpop. cbn [mbind outcome_bind].
  destruct (inv_elems _ _ _ _ _ Hinv d u ltac:(simpl; rewrite Hperm; by left))
    as (Hd & du & Hdu & Hdu_le).
  simpl in Hdu. rewrite (vec_get_Ok _ _ _ Hdu). cbn [mbind outcome_bind].
  assert (length (pq_elems q) = S (length (pq_elems q'))) as Hlen
    by (by rewrite Hperm).
  case_bool_decide as Hstale.
  - apply (IH _ d D).
    + by eapply pop_stale_inv.
    + done.
    + simpl. lia.
  - subst du.
    destruct (pop_fresh_inv L D dist q log d u q' Hinv Hpq' Hperm Hmin Hlow' Hdu)
      as [Hinv1 Hdb].
    destruct (zlookup_in_range g u) as [es Hes].
    { rewrite <- (inv_len _ _ _ _ _ Hinv). by eapply zlookup_Some_range. }
    rewrite (vec_get_Ok _ _ _ Hes). cbn [mbind outcome_bind].
    destruct (relax_edges_spec u d D es [] _ Hes Hinv1 Hrel Hdu Hdb)
      as (st2 & Hr & Hinv2 & Hrel2 & Htight & Hlen2).
    { intros e He. by apply elem_of_nil in He. }
    rewrite Hr. cbn [mbind outcome_bind]. apply (IH _ d (u :: D)).
    + done.
    + intros x es' e Hx Hes' He. apply elem_of_cons in Hx as [->|Hx].
      * simplify_eq. by apply Htight.
      * by eapply Hrel2.
    + simpl in *. rewrite Hes. simpl. unfold out_degree at 2. lia.
Qed.

(** The state before the loop satisfies the invariant. *)
Lemma sssp_init_spec :
  valid_source g s →
  ∃ st, sssp_init g s = Ok st ∧ sssp_inv g s 0 [] st ∧
        relaxed g (st_dist st) [] ∧ length (pq_elems (st_pq st)) = 1%nat.
Proof.
  intros Hs. unfold sssp_init, valid_source in *.
  set (dist := replicate (length g) UINT64_MAX).
  destruct (zlookup_in_range dist s) as [x Hx].
  { unfold dist. by rewrite length_replicate. }
  rewrite (vec_get_Ok _ _ _ Hx). cbn [mbind outcome_bind].
  destruct (pq_push_spec pq_new 0 s pq_new_inv) as (Hpq & Hperm & Hlow).
  { done. }
  { apply pq_new_low. }
  rewrite pq_new_elems in Hperm.
  eexists. split; [reflexivity|]. split; [|split].
  - constructor; simpl.
    + done.
    + unfold vec_set, dist. by rewrite length_insert, length_replicate.
    + unfold vec_set. apply Forall_insert; [|done].
      apply Forall_forall. intros y [-> _]%elem_of_replicate. done.
    + apply zlookup_vec_set_eq. unfold dist. by rewrite length_replicate.
    + rewrite Hlow. apply pq_new_low.
    + done.
    + intros k v Hkv. rewrite Hperm in Hkv.
      apply list_elem_of_singleton in Hkv as [= -> ->].
      split; [done|]. exists 0. split; [|done].
      apply zlookup_vec_set_eq. unfold dist. by rewrite length_replicate.
    + rewrite Hperm. apply NoDup_singleton.
    + constructor.
    + intros u Hu. by apply elem_of_nil in Hu.
    + intros v dv Hv Hdv. destruct (decide (s = v)) as [<-|Hne].
      * rewrite zlookup_vec_set_eq in Hv
          by (unfold dist; by rewrite length_replicate).
        simplify_eq. split; [right; rewrite Hperm; by left|].
        split; [done | constructor].
      * rewrite zlookup_vec_set_ne in Hv by (done || lia).
        apply zlookup_elem_of in Hv. unfold dist in Hv.
        apply elem_of_replicate in Hv as [-> _]. lia.
    + constructor; [|constructor]. simpl. apply pq_new_low.
  - intros u es e Hu. by apply elem_of_nil in Hu.
  - simpl. by rewrite Hperm.
Qed.

(** The relaxation loop returns a shortest-path vector, and all its
    pushes respect the bound of the queue. *)
Theorem sssp_run_spec (fuel : nat) :
  valid_source g s → (edge_count g + 2 ≤ fuel)%nat →
  ∃ st, sssp_run fuel g s = Ok st ∧
        shortest_distances g s (st_dist st) ∧
        Forall push_above_low (st_log st).
Proof.
  intros Hs Hfuel. unfold sssp_run.
  destruct (sssp_init_spec Hs) as (st0 & -> & Hinv0 & Hrel0 & Hlen0).
  cbn [mbind outcome_bind].
  destruct (sssp_loop_spec fuel st0 0 [] Hinv0 Hrel0)
    as (st & L & D & Hr & Hinv & Hrel & Hnil).
  { rewrite Hlen0, <- edge_count_graph_sum. simpl. lia. }
  exists st. split; [done|]. split; [|by destruct Hinv].
  destruct Hinv as [Hpq Hlen Hrange Hsrc Hlow HL Hel Hnd HDnd Hdone Hreach Hlog].
  split; [done|]. split; [done|]. split; [done|]. split.
  - intros v dv Hv Hdv. by destruct (Hreach v dv Hv Hdv) as (_ & _ & ?).
  - intros u du es e Hu Hdu Hes He.
    destruct (Hreach u du Hu Hdu) as ([Hin|Hin] & _).
    + destruct (Hrel u es e Hin Hes He) as (du' & dv & Hu' & Hv & Hle).
      simplify_eq. by exists dv.
    + rewrite Hnil in Hin. by apply elem_of_nil in Hin.
Qed.
End Correctness.

(** A shortest-path vector is unique. *)
Lemma shortest_distances_below g s d2 v w :
  wf_graph g →
  shortest_distances g s d2 → walk g s v w → w < UINT64_MAX →
  0 ≤ w ∧ ∃ dv, zlookup d2 v = Some dv ∧ dv ≤ w.
Proof.
  intros Hwf (Hlen & Hrange & Hsrc & _ & Hclosed) Hwalk.
  induction Hwalk as [|u d es e Hwalk IH Hes He]; intros Hw.
  - split; [done|]. by exists 0.
  - destruct (Hwf u es e Hes He) as [_ [Hwe _]].
    destruct IH as (Hd & du & Hdu & Hle); [lia|].
    split; [lia|].
    destruct (Hclosed u du es e Hdu ltac:(lia) Hes He) as (dv & Hdv & Hle').
    exists dv. split; [done | lia].
Qed.

Lemma shortest_distances_unique g s d1 d2 :
  wf_graph g →
  shortest_distances g s d1 → shortest_distances g s d2 → d1 = d2.
Proof.
  intros Hwf H1 H2.
  assert (∀ da db, shortest_distances g s da → shortest_distances g s db →
            ∀ (i : nat) a b, da !! i = Some a → db !! i = Some b → b ≤ a) as Hle.
  { intros da db Ha Hb i a b Hia Hib.
    pose proof Ha as (_ & Hra & _ & Hwalk & _).
    pose proof Hb as (_ & Hrb & _).
    pose proof (proj1 (Forall_forall _ _) Hra a (list_elem_of_lookup_2 _ _ _ Hia)).
    pose proof (proj1 (Forall_forall _ _) Hrb b (list_elem_of_lookup_2 _ _ _ Hib)).
    destruct (decide (a < UINT64_MAX)) as [Hlt|]; [|simpl in *; lia].
    assert (zlookup da (Z.of_nat i) = Some a) as Hza.
    { unfold zlookup. rewrite bool_decide_true by lia. by rewrite Nat2Z.id. }
    destruct (shortest_distances_below g s db _ _ Hwf Hb (Hwalk _ _ Hza Hlt) Hlt)
      as (_ & b' & Hb' & Hle).
    unfold zlookup in Hb'. rewrite bool_decide_true, Nat2Z.id in Hb' by lia.
    simplify_eq. done. }
  pose proof H1 as (Hlen1 & _). pose proof H2 as (Hlen2 & _).
  apply list_eq. intros i.
  destruct (d1 !! i) as [a|] eqn:Ha, (d2 !! i) as [b|] eqn:Hb.
  - f_equal. pose proof (Hle d1 d2 H1 H2 i a b Ha Hb).
    pose proof (Hle d2 d1 H2 H1 i b a Hb Ha). lia.
  - apply lookup_lt_Some in Ha. apply lookup_ge_None in Hb. lia.
  - apply lookup_lt_Some in Hb. apply lookup_ge_None in Ha. lia.
  - done.
Qed.

(** ** The two algorithms *)

Lemma wf_graph_Forall (g : Graph) :
  Forall (Forall (λ e, 0 ≤ to e < Z.of_nat (length g) ∧ is_uint64 (weight e))) g →
  wf_graph g.
Proof.
  intros Hall u es e Hu He.
  apply zlookup_elem_of in Hu.
  pose proof (proj1 (Forall_forall _ _) Hall es Hu) as Hes.
  by apply (proj1 (Forall_forall _ _) Hes).
Qed.




Example wrapping_graph_built : build_graph 7 wrapping_edges = wrapping_graph.
Proof. reflexivity. Qed.

Lemma wrapping_graph_wf : wf_graph wrapping_graph.
Proof.
  apply wf_graph_Forall. unfold wrapping_graph, is_uint64, two64.
  repeat constructor; simpl; lia.
Qed.








(** * Further properties *)

(** ** The radix heap as a priority queue *)

Lemma radix_inv_new : radix_inv RadixHeap.new.
Proof.
  split; [apply new_wf|]. split; [apply new_bucket_inv | apply new_keys_above].
Qed.

Lemma radix_inv_push key value h :
  radix_inv h → is_uint64 key → RadixHeap.last h ≤ key →
  radix_inv (RadixHeap.push key value h).
Proof.
  intros (Hwf & Hinv & Hab) Hk Hle.
  split; [by apply push_wf|].
  split; [by apply push_bucket_inv | by apply push_keys_above].
Qed.

(** [bucket_index] of a 64-bit difference is one of the 65 bucket indices
    0..64; it is 0 exactly for the difference 0, and it is at most [n]
    exactly when the difference is below [2^n]. *)
Theorem bucket_index_bounds (d : Z) :
  is_uint64 d →
  0 ≤ RadixHeap.bucket_index d ≤ 64 ∧
  (RadixHeap.bucket_index d = 0 ↔ d = 0) ∧
  ∀ n, 0 ≤ n → (RadixHeap.bucket_index d ≤ n ↔ d < 2 ^ n).
Proof.
  intros Hd. split; [by apply bucket_index_range|].
  split; [by apply bucket_index_zero_iff|].
  intros n Hn. by apply bucket_index_le.
Qed.

Lemma bucket_index_bounds_witness :
  0 ≤ RadixHeap.bucket_index 9223372036854775808 ≤ 64.
Proof.
  apply (bucket_index_bounds 9223372036854775808).
  unfold is_uint64, two64. lia.
Defined.

(** On a heap used within its precondition and holding at least one pair,
    [pop] returns a stored pair of least key and removes exactly that
    pair; the counter drops by one, and the watermark moves up to the key
    returned. *)
Theorem pop_returns_minimum (h : RadixHeap.t) :
  radix_inv h → entries h ≠ [] →
  ∃ res h',
    RadixHeap.pop h = Ok (res, h') ∧
    res ∈ entries h ∧
    Forall (λ e, res.1 ≤ e.1) (entries h) ∧
    entries h ≡ₚ res :: entries h' ∧
    RadixHeap.size h' = RadixHeap.size h - 1 ∧
    RadixHeap.last h ≤ RadixHeap.last h' ∧
    RadixHeap.last h' = res.1 ∧
    radix_inv h'.
Proof.
  intros (Hwf & Hinv & Hab) Hne.
  destruct (pop_spec h Hwf Hinv Hne)
    as (res & h' & Hpop & Hwf' & Hinv' & Hperm & Hkey & Hmin).
  destruct (Hmin Hab) as [Hab' Hall].
  assert (res ∈ entries h) as Hin by (rewrite Hperm; by left).
  exists res, h'. split; [done|]. split; [done|]. split; [done|].
  split; [done|]. split_and!.
  - unfold RadixHeap.size.
    destruct Hwf as (_ & -> & _), Hwf' as (_ & -> & _).
    rewrite Hperm. simpl. lia.
  - rewrite <- Hkey. by apply (proj1 (Forall_forall _ _) Hab).
  - done.
  - done.
Qed.

Lemma pop_returns_minimum_witness :
  ∃ res h',
    RadixHeap.pop (RadixHeap.push 9 2 (RadixHeap.push 12 1 RadixHeap.new))
      = Ok (res, h') ∧ RadixHeap.last h' = res.1.
Proof.
  destruct (pop_returns_minimum
              (RadixHeap.push 9 2 (RadixHeap.push 12 1 RadixHeap.new)))
    as (res & h' & Hpop & _ & _ & _ & _ & _ & Hlast & _).
  - apply radix_inv_push; [apply radix_inv_push; [apply radix_inv_new| |]| |];
      unfold is_uint64, two64; simpl; lia.
  - discriminate.
  - by exists res, h'.
Defined.

Lemma push_all_inv l h :
  radix_inv h →
  Forall (λ e : Z * Z, is_uint64 e.1 ∧ RadixHeap.last h ≤ e.1) l →
  radix_inv (push_all l h) ∧
  entries (push_all l h) ≡ₚ entries h ++ l ∧
  RadixHeap.last (push_all l h) = RadixHeap.last h.
Proof.
  revert h. induction l as [|e l IH]; intros h Hinv Hall.
  - simpl. by rewrite app_nil_r.
  - apply Forall_cons in Hall as [[Hk Hle] Hall]. simpl.
    destruct (IH (RadixHeap.push e.1 e.2 h)) as (Hinv' & Hperm & Hlast).
    + by apply radix_inv_push.
    + done.
    + split; [done|]. split; [|done].
      rewrite Hperm, push_entries by (done || apply Hinv).
      destruct e as [k v]. simpl. apply Permutation_middle.
Qed.

Lemma pop_n_sorted n : ∀ h,
  radix_inv h → length (entries h) = n →
  ∃ popped h',
    pop_n n h = Ok (popped, h') ∧ popped ≡ₚ entries h ∧
    StronglySorted Z.le popped.*1 ∧ entries h' = [] ∧ radix_inv h'.
Proof.
  induction n as [|n IH]; intros h Hinv Hlen.
  - exists [], h. apply nil_length_inv in Hlen. rewrite Hlen.
    split; [done|]. split; [done|]. split; [constructor | done].
  - assert (entries h ≠ []) as Hne by (intros Hnil; by rewrite Hnil in Hlen).
    destruct Hinv as (Hwf & Hbi & Habove).
    destruct (pop_spec h Hwf Hbi Hne)
      as (res & h1 & Hpop & Hwf1 & Hbi1 & Hperm & Hkey & Hmin).
    destruct (Hmin Habove) as [Habove1 _].
    assert (radix_inv h1) as Hinv1 by done.
    destruct (IH h1 Hinv1) as (l & h2 & Hpops & Hperm1 & Hsorted & Hnil & Hinv2).
    { rewrite Hperm in Hlen. simpl in Hlen. lia. }
    exists (res :: l), h2. simpl. rewrite Hpop. cbn [mbind outcome_bind].
    rewrite Hpops. cbn [mbind outcome_bind].
    split; [done|]. split; [by rewrite Hperm, Hperm1|].
    split; [|done]. apply StronglySorted_cons.
    split; [|done]. apply Forall_fmap.
    unfold keys_above_last in Habove1.
    rewrite <- Hperm1, <- Hkey in Habove1. done.
Qed.

(** A fresh radix heap sorts: after the pairs of any list with 64-bit keys
    have been pushed, as many calls of [pop] all return, they return the
    pushed pairs with their keys in non-decreasing order, and they leave
    the heap empty. *)
Theorem radix_heap_sorts (l : list (Z * Z)) :
  Forall (λ e : Z * Z, is_uint64 e.1) l →
  ∃ popped h',
    pop_n (length l) (push_all l RadixHeap.new) = Ok (popped, h') ∧
    popped ≡ₚ l ∧
    StronglySorted Z.le popped.*1 ∧
    RadixHeap.empty h' = true.
Proof.
  intros Hl.
  destruct (push_all_inv l RadixHeap.new radix_inv_new)
    as (Hinv & Hperm & _).
  { eapply Forall_impl; [done|]. intros e He. split; [done|]. apply He. }
  destruct (pop_n_sorted (length l) (push_all l RadixHeap.new) Hinv)
    as (popped & h' & Hpop & Hperm' & Hsorted & Hnil & Hinv').
  { by rewrite Hperm. }
  exists popped, h'. split; [done|].
  split; [by rewrite Hperm', Hperm|]. split; [done|].
  apply empty_iff_entries; [apply Hinv' | done].
Qed.

Lemma radix_heap_sorts_witness :
  ∃ popped h',
    pop_n 4 (push_all [(100, 4); (5, 1); (9, 3); (5, 2)] RadixHeap.new)
      = Ok (popped, h') ∧
    popped ≡ₚ [(100, 4); (5, 1); (9, 3); (5, 2)] ∧
    StronglySorted Z.le popped.*1 ∧
    RadixHeap.empty h' = true.
Proof.
  apply (radix_heap_sorts [(100, 4); (5, 1); (9, 3); (5, 2)]).
  unfold is_uint64, two64. repeat constructor; simpl; lia.
Defined.

(** Along every sequence of operations within the precondition of [push],
    the counter [sz] equals the number of stored pairs, so that [empty]
    answers true exactly when no pair is stored, and the vector of buckets
    keeps its 65 elements. *)
Theorem radix_size_counts (ops : list heap_op) :
  monotone_pushes ops RadixHeap.new →
  Forall (λ h, RadixHeap.size h = Z.of_nat (length (entries h)) ∧
               (RadixHeap.empty h = true ↔ entries h = []) ∧
               length (RadixHeap.buckets h) = 65%nat)
    (run_ops ops RadixHeap.new).
Proof.
  intros Hmono.
  eapply Forall_impl;
    [apply run_ops_invariants; [apply new_wf | apply new_bucket_inv | done]|].
  intros h [Hwf _]. simpl.
  split; [apply Hwf|]. split; [by apply empty_iff_entries | apply Hwf].
Qed.

Lemma radix_size_counts_witness :
  Forall (λ h, RadixHeap.size h = Z.of_nat (length (entries h)) ∧
               (RadixHeap.empty h = true ↔ entries h = []) ∧
               length (RadixHeap.buckets h) = 65%nat)
    (run_ops [OpPush 5 1; OpPush 9 2; OpPop; OpPush 7 3; OpPop; OpPop; OpPop]
       RadixHeap.new).
Proof.
  apply radix_size_counts.
  vm_compute. repeat split; intros; discriminate.
Defined.

(** ** The distances are the least walk weights *)

(** On a graph whose edge weights sum to less than 2^64, the vector both
    algorithms return gives every node the least weight of a walk from the
    source: it is at most the weight of any walk that stays below the
    sentinel, every entry below the sentinel is the weight of a walk, and a
    node that no walk reaches keeps the sentinel. *)
Theorem sssp_distances_optimal (g : Graph) (s : Z) (fuel : nat) :
  wf_graph g → valid_source g s → total_weight g < two64 →
  (edge_count g + 2 ≤ fuel)%nat →
  ∃ d, dijkstra fuel g s = Ok d ∧
       breaking_sorting_barrier_sssp fuel g s = Ok d ∧
       length d = length g ∧
       zlookup d s = Some 0 ∧
       (∀ v w, walk g s v w → w < UINT64_MAX →
          ∃ dv, zlookup d v = Some dv ∧ dv ≤ w) ∧
       (∀ v dv, zlookup d v = Some dv → dv < UINT64_MAX → walk g s v dv) ∧
       (∀ v, 0 ≤ v < Z.of_nat (length g) → (∀ w, ¬ walk g s v w) →
          zlookup d v = Some UINT64_MAX).
Proof.
  intros Hwf Hs Hb Hfuel.
  destruct (sssp_run_spec (Q:=BinaryHeap.t) g s Hwf Hb fuel Hs Hfuel)
    as (st1 & Hr1 & Hd1 & _).
  destruct (sssp_run_spec (Q:=RadixHeap.t) g s Hwf Hb fuel Hs Hfuel)
    as (st2 & Hr2 & Hd2 & _).
  exists (st_dist st1). unfold dijkstra, breaking_sorting_barrier_sssp.
  rewrite Hr1, Hr2. simpl.
  rewrite (shortest_distances_unique g s _ _ Hwf Hd2 Hd1).
  pose proof Hd1 as (Hlen & Hrange & Hsrc & Hwalk & _).
  split; [done|]. split; [done|]. split; [done|]. split; [done|]. split_and!.
  - intros v w Hw Hlt.
    by destruct (shortest_distances_below g s _ v w Hwf Hd1 Hw Hlt) as [_ ?].
  - done.
  - intros v Hv Hno. rewrite <- Hlen in Hv.
    destruct (zlookup_in_range _ v Hv) as [dv Hdv].
    pose proof (proj1 (Forall_forall _ _) Hrange dv (zlookup_elem_of _ _ _ Hdv))
      as Hr. simpl in Hr.
    destruct (decide (dv < UINT64_MAX)) as [Hlt|Hge].
    + destruct (Hno dv). by apply Hwalk.
    + rewrite Hdv. f_equal. lia.
Qed.

Lemma sssp_distances_optimal_witness :
  ∃ d, dijkstra 6 scenario_A 0 = Ok d ∧
       breaking_sorting_barrier_sssp 6 scenario_A 0 = Ok d ∧
       (∀ v w, walk scenario_A 0 v w → w < UINT64_MAX →
          ∃ dv, zlookup d v = Some dv ∧ dv ≤ w).
Proof.
  destruct (sssp_distances_optimal scenario_A 0 6)
    as (d & H1 & H2 & _ & _ & Hopt & _).
  - apply wf_graph_Forall. unfold scenario_A, is_uint64, two64.
    repeat constructor; simpl; lia.
  - unfold valid_source. simpl. lia.
  - reflexivity.
  - simpl. lia.
  - exists d. split; [exact H1|]. split; [exact H2 | exact Hopt].
Defined.

(** ** Without any bound on the weights *)

#[global] Program Instance binary_heap_sound : PriorityQueueSound BinaryHeap.t := {|
  pqs_inv := λ _, True;
  pqs_elems := λ q, q
|}.
Next Obligation. done. Qed.
Next Obligation. done. Qed.
Next Obligation.
  intros q _. simpl. unfold BinaryHeap.empty. by rewrite bool_decide_eq_true.
Qed.
Next Obligation.
  intros q key value _ _. simpl. unfold BinaryHeap.push.
  split; [done|]. symmetry. apply Permutation_cons_append.
Qed.
Next Obligation.
  intros q _ Hne. simpl in *. destruct q as [|x l]; [done|].
  destruct (least_spec x l) as [Hin _].
  eexists _, _. split; [reflexivity|]. split; [done|].
  by apply remove_one_perm.
Qed.

#[global] Program Instance radix_heap_sound : PriorityQueueSound RadixHeap.t := {|
  pqs_inv := λ h, heap_wf h ∧ bucket_inv h;
  pqs_elems := entries
|}.
Next Obligation. split; [apply new_wf | apply new_bucket_inv]. Qed.
Next Obligation. done. Qed.
Next Obligation. intros h [Hwf _]. by apply empty_iff_entries. Qed.
Next Obligation.
  intros h key value [Hwf Hinv] Hk. simpl.
  split; [|by apply push_entries].
  split; [by apply push_wf | by apply push_bucket_inv].
Qed.
Next Obligation.
  intros h [Hwf Hinv] Hne. simpl in *.
  destruct (pop_spec h Hwf Hinv Hne)
    as (res & h' & Hpop & Hwf' & Hinv' & Hperm & _).
  by exists res, h'.
Qed.

Lemma sum_dist_insert (dist : list Z) (i : nat) dv nd :
  dist !! i = Some dv → sum_dist (<[i := nd]> dist) = sum_dist dist - dv + nd.
Proof.
  revert i. induction dist as [|x dist IH]; intros [|i] Hi; simpl in *; try done.
  - injection Hi as ->. lia.
  - change (list_insert i nd dist) with (<[i := nd]> dist).
    rewrite (IH i Hi). lia.
Qed.

Lemma sum_dist_nonneg (dist : list Z) :
  Forall (λ d, 0 ≤ d ≤ UINT64_MAX) dist → 0 ≤ sum_dist dist.
Proof. induction 1 as [|x dist Hx _ IH]; simpl; lia. Qed.

Lemma add64_range (a b : Z) : 0 ≤ add64 a b < two64.
Proof. unfold add64. apply Z.mod_pos_bound. done. Qed.

Lemma tight64_decrease dist x e v dv nd :
  tight64 dist x e → x ≠ v → zlookup dist v = Some dv → nd ≤ dv →
  tight64 (vec_set dist v nd) x e.
Proof.
  intros (dx & dy & Hx & Hy & Hle) Hne Hdv Hnd.
  pose proof (zlookup_Some_range _ _ _ Hdv) as Hv.
  destruct (decide (to e = v)) as [Heq|Hne'].
  - exists dx, nd. rewrite zlookup_vec_set_ne by (done || lia).
    rewrite Heq, zlookup_vec_set_eq by done.
    split; [done|]. split; [done|]. rewrite Heq in Hy. simplify_eq. lia.
  - exists dx, dy. rewrite !zlookup_vec_set_ne by (done || lia). done.
Qed.

Section Soundness.
Context {Q : Type} `{PriorityQueueSound Q}.
Variables (g : Graph) (s : Z).
Hypothesis g_wf : wf_graph g.

Lemma loop_measure_nonneg st : sound_inv g s st → 0 ≤ loop_measure st.
Proof.
  intros Hinv. unfold loop_measure.
  pose proof (sum_dist_nonneg _ (snd_range _ _ _ Hinv)). lia.
Qed.

Lemma relax_edges_sound u d rest : ∀ pre st,
  zlookup g u = Some (pre ++ rest) →
  sound_inv g s st → (∀ x, x ≠ u → settled g st x) → settling st u d pre →
  ∃ st',
    relax_edges d rest st = Ok st' ∧
    sound_inv g s st' ∧ (∀ x, x ≠ u → settled g st' x) ∧
    settling st' u d (pre ++ rest) ∧
    loop_measure st' ≤ loop_measure st.
Proof.
  induction rest as [|e rest IH]; intros pre [dist q log] Hes Hinv Hset Hu.
  - exists (mkState dist q log). rewrite app_nil_r. by split_and!.
  - simpl in *.
    assert (e ∈ pre ++ e :: rest) as He by (apply elem_of_app; right; by left).
    destruct (g_wf u _ e Hes He) as [Hto _].
    pose proof Hinv as [Hpq Hlen Hrange Hsrc Hnodes]. simpl in *.
    rewrite <- Hlen in Hto.
    destruct (zlookup_in_range dist (to e) Hto) as [dv Hdv].
    pose proof (add64_range d (weight e)) as Hnd.
    set (nd := add64 d (weight e)) in *.
    rewrite (vec_get_Ok _ _ _ Hdv). cbn [mbind outcome_bind].
    assert (pre ++ e :: rest = (pre ++ [e]) ++ rest) as Happ
      by (by rewrite <- (assoc_L (++))).
    rewrite Happ in Hes |- *.
    pose proof (proj1 (Forall_forall _ _) Hrange dv (zlookup_elem_of _ _ _ Hdv))
      as Hdvr. simpl in Hdvr.
    case_bool_decide as Hlt.
    + destruct (pqs_push_spec q nd (to e) Hpq Hnd) as [Hpq' Hperm].
      destruct (IH (pre ++ [e])
                  (mkState (vec_set dist (to e) nd) (pq_push nd (to e) q)
                     (CallPush q nd (to e) :: log)) Hes)
        as (st' & Hr & Hinv' & Hset' & Hu' & Hm).
      * constructor; simpl.
        -- done.
        -- unfold vec_set. by rewrite length_insert.
        -- unfold vec_set. apply Forall_insert; [done|]. lia.
        -- destruct (decide (to e = s)) as [Heq|Hne].
           ++ rewrite Heq in Hdv. simplify_eq. lia.
           ++ rewrite zlookup_vec_set_ne by (done || lia). done.
        -- intros k v Hkv. rewrite Hperm in Hkv.
           apply elem_of_cons in Hkv as [[= -> ->]|Hkv]; [lia | by eapply Hnodes].
      * intros x Hx dx Hdx Hdxlt. simpl in *.
        destruct (decide (to e = x)) as [<-|Hne].
        -- rewrite zlookup_vec_set_eq in Hdx by done. simplify_eq.
           left. rewrite Hperm. by left.
        -- rewrite zlookup_vec_set_ne in Hdx by (done || lia).
           destruct (Hset x Hx dx Hdx Hdxlt) as [Hin|Htight].
           ++ left. rewrite Hperm. by right.
           ++ right. intros es' e' Hes' He'.
              eapply tight64_decrease; [by eapply Htight | done | done | lia].
      * unfold settling in *. simpl in *.
        destruct (decide (to e = u)) as [Heq|Hne].
        -- left. exists nd. rewrite <- Heq, zlookup_vec_set_eq by done.
           split; [done|]. rewrite Hperm. by left.
        -- destruct Hu as [(du & Hdu & Hin)|[Hdu Hpre]].
           ++ left. exists du. rewrite zlookup_vec_set_ne by (done || lia).
              split; [done|]. rewrite Hperm. by right.
           ++ right. rewrite zlookup_vec_set_ne by (done || lia).
              split; [done|]. intros e' [He'|He']%elem_of_app.
              ** eapply tight64_decrease; [by apply Hpre | done | done | lia].
              ** apply list_elem_of_singleton in He' as ->.
                 exists d, nd.
                 rewrite zlookup_vec_set_ne, zlookup_vec_set_eq
                   by (done || lia).
                 done.
      * exists st'. split; [done|]. split; [done|]. split; [done|].
        split; [done|]. etrans; [exact Hm|].
        unfold loop_measure. simpl. rewrite Hperm. unfold vec_set, zlookup in *.
        rewrite bool_decide_true in Hdv by lia.
        rewrite (sum_dist_insert _ _ _ _ Hdv). simpl length. lia.
    + destruct (IH (pre ++ [e]) (mkState dist q log) Hes Hinv Hset)
        as (st' & Hr & Hinv' & Hset' & Hu' & Hm).
      * unfold settling in *. simpl in *.
        destruct Hu as [Hleft|[Hdu Hpre]]; [by left|].
        right. split; [done|]. intros e' [He'|He']%elem_of_app; [by apply Hpre|].
        apply list_elem_of_singleton in He' as ->.
        exists d, dv. split; [done|]. split; [done|]. fold nd. lia.
      * by exists st'.
Qed.

Lemma sssp_loop_sound fuel : ∀ st,
  sound_inv g s st → (∀ x, settled g st x) →
  loop_measure st < Z.of_nat fuel →
  ∃ st',
    sssp_loop fuel g st = Ok st' ∧
    sound_inv g s st' ∧ (∀ x, settled g st' x) ∧
    pqs_elems (st_pq st') = [].
Proof.
  induction fuel as [|fuel IH]; intros [dist q log] Hinv Hset Hfuel.
  { pose proof (loop_measure_nonneg _ Hinv). lia. }
  pose proof Hinv as [Hpq Hlen Hrange Hsrc Hnodes]. simpl in *.
  destruct (pq_empty q) eqn:Hempty.
  { exists (mkState dist q log). split; [done|]. split; [done|].
    split; [done|]. simpl. by apply pqs_empty_elems. }
  assert (pqs_elems q ≠ []) as Hne.
  { intros Hnil. apply pqs_empty_elems in Hnil; [congruence | done]. }
  destruct (pqs_pop_spec q Hpq Hne) as ([d u] & q' & Hpop & Hpq' & Hperm).
  rewrite Hpop. cbn [mbind outcome_bind].
  assert ((d, u) ∈ pqs_elems q) as Hin by (rewrite Hperm; by left).
  pose proof (Hnodes d u Hin) as Hu.
  destruct (zlookup_in_range dist u ltac:(by rewrite Hlen)) as [du Hdu].
  rewrite (vec_get_Ok _ _ _ Hdu). cbn [mbind outcome_bind].
  assert (sound_inv g s (mkState dist q' (CallPop q :: log))) as Hinv1.
  { constructor; simpl; try done.
    intros k v Hkv. apply (Hnodes k v). rewrite Hperm. by right. }
  assert (loop_measure (mkState dist q' (CallPop q :: log))
          = loop_measure (mkState dist q log) - 1) as Hm1.
  { unfold loop_measure. simpl. rewrite Hperm. simpl length. lia. }
  case_bool_decide as Hstale.
  - apply IH; [done| |lia].
    intros x dx Hdx Hlt. simpl in *.
    destruct (Hset x dx Hdx Hlt) as [Hx|Hx]; [|by right].
    left. rewrite Hperm in Hx.
    apply elem_of_cons in Hx as [[= -> ->]|Hx]; [|done]. simplify_eq.
  - subst du.
    destruct (zlookup_in_range g u Hu) as [es Hes].
    rewrite (vec_get_Ok _ _ _ Hes). cbn [mbind outcome_bind].
    destruct (relax_edges_sound u d es [] _ Hes Hinv1)
      as (st2 & Hr & Hinv2 & Hset2 & Hu2 & Hm2).
    { intros x Hx dx Hdx Hlt. simpl in *.
      destruct (Hset x dx Hdx Hlt) as [Hx'|Hx']; [|by right].
      left. rewrite Hperm in Hx'.
      apply elem_of_cons in Hx' as [[= -> ->]|Hx']; done. }
    { right. split; [done|]. intros e He. by apply elem_of_nil in He. }
    rewrite Hr. cbn [mbind outcome_bind]. apply IH; [done| |lia].
    intros x. destruct (decide (x = u)) as [->|Hx]; [|by apply Hset2].
    intros dx Hdx Hlt. destruct Hu2 as [(du & Hdu' & Hin')|[Hdu' Htight]].
    + left. by simplify_eq.
    + right. intros es' e Hes' He. simplify_eq. by apply Htight.
Qed.

Lemma sssp_init_sound :
  valid_source g s →
  ∃ st, sssp_init g s = Ok st ∧ sound_inv g s st ∧ ∀ x, settled g st x.
Proof.
  intros Hs. unfold sssp_init, valid_source in *.
  set (dist := replicate (length g) UINT64_MAX).
  assert (length dist = length g) as Hlen by apply length_replicate.
  destruct (zlookup_in_range dist s) as [x Hx]; [by rewrite Hlen|].
  rewrite (vec_get_Ok _ _ _ Hx). cbn [mbind outcome_bind].
  destruct (pqs_push_spec pq_new 0 s pqs_new_inv) as [Hpq Hperm]; [done|].
  rewrite pqs_new_elems in Hperm.
  eexists. split; [reflexivity|]. split.
  - constructor; simpl.
    + done.
    + unfold vec_set. by rewrite length_insert.
    + unfold vec_set. apply Forall_insert; [|done].
      apply Forall_forall. intros y [-> _]%elem_of_replicate. done.
    + apply zlookup_vec_set_eq. by rewrite Hlen.
    + intros k v Hkv. rewrite Hperm in Hkv.
      by apply list_elem_of_singleton in Hkv as [= -> ->].
  - intros v dv Hv Hdv. simpl in *. destruct (decide (s = v)) as [<-|Hne].
    + rewrite zlookup_vec_set_eq in Hv by (by rewrite Hlen).
      simplify_eq. left. rewrite Hperm. by left.
    + rewrite zlookup_vec_set_ne in Hv by (done || lia).
      apply zlookup_elem_of in Hv. unfold dist in Hv.
      apply elem_of_replicate in Hv as [-> _]. lia.
Qed.

(** The relaxation loop returns on every well-formed graph, and what it
    returns is a fixpoint of the relaxation. *)
Lemma sssp_run_sound :
  valid_source g s →
  ∃ fuel st, sssp_run fuel g s = Ok st ∧
             relaxation_fixpoint g s (st_dist st).
Proof.
  intros Hs. destruct (sssp_init_sound Hs) as (st0 & Hinit & Hinv0 & Hset0).
  destruct (sssp_loop_sound (S (Z.to_nat (loop_measure st0))) st0 Hinv0 Hset0)
    as (st & Hr & Hinv & Hset & Hnil).
  { pose proof (loop_measure_nonneg _ Hinv0). lia. }
  exists (S (Z.to_nat (loop_measure st0))), st. unfold sssp_run.
  rewrite Hinit. cbn [mbind outcome_bind]. split; [done|].
  destruct Hinv as [Hpq Hlen Hrange Hsrc Hnodes].
  split; [done|]. split; [done|]. split; [done|].
  intros u du es e Hu Hdu Hes He.
  destruct (Hset u du Hu Hdu) as [Hin|Htight].
  - rewrite Hnil in Hin. by apply elem_of_nil in Hin.
  - by eapply Htight.
Qed.
End Soundness.

Lemma fmap_fuel_mono {A B} (f : A → B) (run : nat → outcome A) (d : B) :
  (∀ n m r, run n = r → r ≠ OutOfFuel → (n ≤ m)%nat → run m = r) →
  ∀ n m, f <$> run n = Ok d →
         f <$> run m = Ok d ∨ f <$> run m = OutOfFuel.
Proof.
  intros Hmono n m Hn.
  destruct (run m) as [a| | |] eqn:Hm; [| | |by right].
  - left. destruct (run n) as [a'| | |] eqn:Hn'; try done.
    destruct (decide (n ≤ m)%nat).
    + rewrite (Hmono n m (Ok a') Hn') in Hm by done. by simplify_eq.
    + rewrite (Hmono m n (Ok a) Hm) in Hn' by (done || lia). by simplify_eq.
  - destruct (run n) as [a'| | |] eqn:Hn'; try done.
    destruct (decide (n ≤ m)%nat).
    + rewrite (Hmono n m (Ok a') Hn') in Hm by done. done.
    + rewrite (Hmono m n (Throw e) Hm) in Hn' by (done || lia). done.
  - destruct (run n) as [a'| | |] eqn:Hn'; try done.
    destruct (decide (n ≤ m)%nat).
    + rewrite (Hmono n m (Ok a') Hn') in Hm by done. done.
    + rewrite (Hmono m n Undefined Hm) in Hn' by (done || lia). done.
Qed.

(** On every graph whose edges point to nodes of the graph and for every
    source in [0, N), wrap-around or not, both algorithms return a
    distance vector: no fuel makes either of them throw or reach undefined
    behaviour, and in particular the radix heap is never popped empty.
    Each vector has one entry per node, has 0 at the source, and is a
    fixpoint of the relaxation with the 64-bit sum of the code. *)
Theorem sssp_always_returns (g : Graph) (s : Z) :
  wf_graph g → valid_source g s →
  ∃ d1 d2,
    (∃ fuel, dijkstra fuel g s = Ok d1 ∧
             breaking_sorting_barrier_sssp fuel g s = Ok d2) ∧
    relaxation_fixpoint g s d1 ∧ relaxation_fixpoint g s d2 ∧
    ∀ fuel,
      (dijkstra fuel g s = Ok d1 ∨ dijkstra fuel g s = OutOfFuel) ∧
      (breaking_sorting_barrier_sssp fuel g s = Ok d2 ∨
       breaking_sorting_barrier_sssp fuel g s = OutOfFuel).
Proof.
  intros Hwf Hs.
  destruct (sssp_run_sound (Q:=BinaryHeap.t) g s Hwf Hs) as (f1 & st1 & Hr1 & Hfix1).
  destruct (sssp_run_sound (Q:=RadixHeap.t) g s Hwf Hs) as (f2 & st2 & Hr2 & Hfix2).
  assert (dijkstra f1 g s = Ok (st_dist st1)) as H1
    by (unfold dijkstra; by rewrite Hr1).
  assert (breaking_sorting_barrier_sssp f2 g s = Ok (st_dist st2)) as H2
    by (unfold breaking_sorting_barrier_sssp; by rewrite Hr2).
  exists (st_dist st1), (st_dist st2). split.
  { exists (f1 `max` f2)%nat. split.
    - apply (dijkstra_fuel_mono _ _ f1); [done | lia].
    - apply (breaking_sorting_barrier_sssp_fuel_mono _ _ f2); [done | lia]. }
  split; [done|]. split; [done|]. intros fuel. split.
  - apply (fmap_fuel_mono st_dist
             (λ n, sssp_run (Q:=BinaryHeap.t) n g s) _
             (sssp_run_fuel_mono g s) f1 fuel H1).
  - apply (fmap_fuel_mono st_dist
             (λ n, sssp_run (Q:=RadixHeap.t) n g s) _
             (sssp_run_fuel_mono g s) f2 fuel H2).
Qed.

Lemma sssp_always_returns_witness :
  ∃ d1 d2,
    (∃ fuel, dijkstra fuel wrapping_graph 0 = Ok d1 ∧
             breaking_sorting_barrier_sssp fuel wrapping_graph 0 = Ok d2) ∧
    relaxation_fixpoint wrapping_graph 0 d1 ∧
    relaxation_fixpoint wrapping_graph 0 d2.
Proof.
  destruct (sssp_always_returns wrapping_graph 0)
    as (d1 & d2 & Hex & Hf1 & Hf2 & _).
  - apply wrapping_graph_wf.
  - unfold valid_source. simpl. lia.
  - exists d1, d2. split; [exact Hex|]. split; [exact Hf1 | exact Hf2].
Defined.

(** ** The loaded graph *)

Section LoadedGraph.
Variable extract : string → option (Z * Z * Z).

Lemma read_lines_app l1 l2 edges m :
  read_lines extract (l1 ++ l2) edges m =
  '(edges', m') ← read_lines extract l1 edges m; read_lines extract l2 edges' m'.
Proof.
  revert edges m. induction l1 as [|l l1 IH]; intros edges m; simpl; [done|].
  destruct (skipped l); [apply IH|].
  destruct (extract l) as [[[from to_] w]|]; [|done].
  repeat case_bool_decide; done || apply IH.
Qed.

(** The edges read are the triples extracted from the lines that are not
    skipped, in the order of the file. *)
Lemma read_lines_edges lines edges m edges' m' :
  read_lines extract lines edges m = Ok (edges', m') →
  edges' = edges ++ omap extract (filter (λ l, skipped l = false) lines).
Proof.
  revert edges m. induction lines as [|l lines IH]; intros edges m Hr.
  - simpl in Hr. injection Hr as <- <-. by rewrite app_nil_r.
  - simpl in Hr. destruct (skipped l) eqn:Hs.
    + rewrite filter_cons_False by (by rewrite Hs). by eapply IH.
    + rewrite filter_cons_True by done. simpl.
      destruct (extract l) as [[[from to_] w]|]; [|done].
      repeat case_bool_decide; try done.
      apply IH in Hr. by rewrite <- (assoc_L (++)) in Hr.
Qed.

(** Identifiers and weights are non-negative, [max_node] bounds the
    identifiers and, once an edge has been read, is one of them. *)
Lemma read_lines_max lines edges m edges' m' :
  Forall (λ e : Z * Z * Z, 0 ≤ e.1.1 ≤ m ∧ 0 ≤ e.1.2 ≤ m ∧ 0 ≤ e.2) edges →
  (m = -1 ∧ edges = [] ∨ ∃ e, e ∈ edges ∧ (e.1.1 = m ∨ e.1.2 = m)) →
  read_lines extract lines edges m = Ok (edges', m') →
  Forall (λ e : Z * Z * Z, 0 ≤ e.1.1 ≤ m' ∧ 0 ≤ e.1.2 ≤ m' ∧ 0 ≤ e.2) edges' ∧
  (m' = -1 ∧ edges' = [] ∨ ∃ e, e ∈ edges' ∧ (e.1.1 = m' ∨ e.1.2 = m')).
Proof.
  revert edges m. induction lines as [|l lines IH]; intros edges m Hall Hmax Hr.
  - simpl in Hr. by injection Hr as <- <-.
  - simpl in Hr. destruct (skipped l); [by eapply IH|].
    destruct (extract l) as [[[from to_] w]|]; [|done].
    case_bool_decide as Hneg; [done|].
    case_bool_decide as Hw; [done|].
    eapply IH; [| |done].
    + apply Forall_app. split.
      * eapply Forall_impl; [done|]. intros e He. simpl in He. lia.
      * constructor; [simpl; lia | constructor].
    + right. destruct (decide (Z.max (Z.max m from) to_ = m)) as [Hm|Hm].
      * destruct Hmax as [[-> _]|(e & He & Hem)]; [lia|].
        exists e. split; [apply elem_of_app; by left|]. by rewrite Hm.
      * exists (from, to_, w). split; [apply elem_of_app; right; by left|].
        simpl. lia.
Qed.

Lemma zlookup_alter_snoc (g : Graph) (f u : Z) x :
  0 ≤ f →
  zlookup (alter (λ es, es ++ [x]) (Z.to_nat f) g) u
  = (λ es, if decide (f = u) then es ++ [x] else es) <$> zlookup g u.
Proof.
  intros Hf. unfold zlookup. case_bool_decide as Hu; [|done].
  destruct (decide (f = u)) as [->|Hne].
  - by rewrite list_lookup_alter, decide_True.
  - rewrite list_lookup_alter_ne by lia.
    by destruct (g !! Z.to_nat u).
Qed.

Lemma fold_add_edge_lookup edges : ∀ (g : Graph) u,
  Forall (λ e : Z * Z * Z, 0 ≤ e.1.1) edges →
  zlookup (fold_left add_edge edges g) u
  = (λ es, es ++ adjacency edges u) <$> zlookup g u.
Proof.
  induction edges as [|[[from to_] w] edges IH]; intros g u Hall.
  - simpl. unfold adjacency. rewrite filter_nil. simpl.
    destruct (zlookup g u); simpl; [by rewrite app_nil_r | done].
  - apply Forall_cons in Hall as [Hf Hall]. simpl in Hf. simpl.
    rewrite IH by done. rewrite zlookup_alter_snoc by done.
    unfold adjacency. destruct (zlookup g u) as [es|]; [|done]. simpl.
    f_equal. destruct (decide (from = u)) as [->|Hne].
    + rewrite filter_cons_True by done. simpl. by rewrite <- (assoc_L (++)).
    + by rewrite filter_cons_False.
Qed.

Lemma fold_add_edge_length edges : ∀ (g : Graph),
  length (fold_left add_edge edges g) = length g.
Proof.
  induction edges as [|[[from to_] w] edges IH]; intros g; [done|].
  simpl. by rewrite IH, length_alter.
Qed.

Lemma elem_of_adjacency edges u e :
  e ∈ adjacency edges u ↔
  ∃ t : Z * Z * Z, t ∈ edges ∧ t.1.1 = u ∧ e = mkEdge t.1.2 t.2.
Proof.
  unfold adjacency. rewrite list_elem_of_fmap. split.
  - intros (t & -> & [Hu Ht]%list_elem_of_filter). by exists t.
  - intros (t & Ht & Hu & ->). exists t. split; [done|].
    by apply list_elem_of_filter.
Qed.

(** The load result in terms of what [read_lines] returns. *)
Lemma read_graph_unfold path lines loaded :
  read_graph_from_file extract path (Some lines) = Ok loaded →
  graph loaded ≠ [] →
  ∃ m, 0 ≤ m ∧
    read_lines extract lines [] (-1)
      = Ok (omap extract (filter (λ l, skipped l = false) lines), m) ∧
    loaded = {| graph := build_graph (m + 1)
                  (omap extract (filter (λ l, skipped l = false) lines));
                node_count := m + 1 |}.
Proof.
  unfold read_graph_from_file.
  destruct (read_lines extract lines [] (-1)) as [[edges m]| | |] eqn:Hr;
    try done.
  cbn [mbind outcome_bind]. case_bool_decide as Hm; [by intros [= <-]|].
  intros [= <-] _.
  pose proof (read_lines_edges _ _ _ _ _ Hr) as Hedges. simpl in Hedges.
  exists m. rewrite <- Hedges. split; [lia | done].
Qed.

Lemma build_graph_length n edges :
  length (build_graph n edges) = Z.to_nat n.
Proof. unfold build_graph. by rewrite fold_add_edge_length, length_replicate. Qed.

Lemma build_graph_lookup n edges u :
  Forall (λ e : Z * Z * Z, 0 ≤ e.1.1) edges → 0 ≤ u < n →
  zlookup (build_graph n edges) u = Some (adjacency edges u).
Proof.
  intros Hall Hu. unfold build_graph. rewrite fold_add_edge_lookup by done.
  unfold zlookup. rewrite bool_decide_true by lia.
  by rewrite lookup_replicate_2 by lia.
Qed.

(** The edges of a loaded graph point into the graph and carry the
    weights of the file. *)
Lemma loaded_graph_edges path lines loaded u es e :
  read_graph_from_file extract path (Some lines) = Ok loaded →
  zlookup (graph loaded) u = Some es → e ∈ es →
  0 ≤ to e < Z.of_nat (length (graph loaded)) ∧ 0 ≤ weight e ∧
  ∃ line from, extract line = Some (from, to e, weight e).
Proof.
  intros Hread Hu He.
  assert (graph loaded ≠ []) as Hne.
  { intros Hnil. rewrite Hnil in Hu. unfold zlookup in Hu.
    by case_bool_decide. }
  destruct (read_graph_unfold path lines loaded Hread Hne)
    as (m & Hm & Hr & ->).
  cbn [graph] in *.
  pose proof (read_lines_max lines [] (-1) _ m (Forall_nil_2 _)
                (or_introl (conj eq_refl eq_refl)) Hr) as [Hall _].
  pose proof (zlookup_Some_range _ _ _ Hu) as Hur.
  rewrite build_graph_length in Hur |- *.
  rewrite build_graph_lookup in Hu.
  - injection Hu as <-. apply elem_of_adjacency in He as (t & Ht & _ & ->).
    pose proof (proj1 (Forall_forall _ _) Hall t Ht) as Hb. simpl in *.
    split; [lia|]. split; [lia|].
    apply list_elem_of_omap in Ht as (l & _ & Hl).
    exists l, t.1.1. by destruct t as [[? ?] ?].
  - eapply Forall_impl; [exact Hall|]. intros t Ht. simpl in Ht. lia.
  - lia.
Qed.

(** What [read_graph_from_file] builds. When it returns a graph that is not
    empty, the node count is the number of adjacency lists and is one more
    than the largest identifier of the file; all identifiers and weights
    are non-negative; the adjacency list of every node holds exactly the
    edges of the file that leave this node, in the order of the file; and
    the graph has one edge per line that is not skipped. *)
Theorem loaded_graph_adjacency (path : string) (lines : list string)
    (loaded : GraphLoadResult) :
  read_graph_from_file extract path (Some lines) = Ok loaded →
  graph loaded ≠ [] →
  let edges := omap extract (filter (λ l, skipped l = false) lines) in
  node_count loaded = Z.of_nat (length (graph loaded)) ∧
  (∀ e, e ∈ edges →
     0 ≤ e.1.1 < node_count loaded ∧ 0 ≤ e.1.2 < node_count loaded ∧ 0 ≤ e.2) ∧
  (∃ e, e ∈ edges ∧
     (e.1.1 = node_count loaded - 1 ∨ e.1.2 = node_count loaded - 1)) ∧
  (∀ u, 0 ≤ u < node_count loaded →
     zlookup (graph loaded) u = Some (adjacency edges u)) ∧
  edge_count (graph loaded) = length edges.
Proof.
  intros Hread Hne edges.
  destruct (read_graph_unfold path lines loaded Hread Hne)
    as (m & Hm & Hr & ->).
  fold edges in Hr |- *. cbn [graph node_count].
  destruct (read_lines_max lines [] (-1) edges m) as [Hall Hmax];
    [constructor | by left | done |].
  split; [rewrite build_graph_length; lia|]. split; [|split; [|split]].
  - intros e He. pose proof (proj1 (Forall_forall _ _) Hall e He) as H.
    simpl in H. lia.
  - destruct Hmax as [[-> _]|(e & He & Hem)]; [lia|].
    exists e. split; [done|]. destruct Hem; [left | right]; lia.
  - intros u Hu. apply build_graph_lookup; [|lia].
    eapply Forall_impl; [exact Hall|]. intros e He. simpl in He. lia.
  - unfold build_graph. rewrite edge_count_fold_add_edge.
    + rewrite edge_count_replicate. lia.
    + eapply Forall_impl; [exact Hall|]. intros e He. simpl in He.
      rewrite length_replicate. lia.
Qed.

(** A graph that [read_graph_from_file] returns meets what the two
    algorithms index with: every edge points to a node of the graph, and
    every weight is a non-negative [long long], hence a 64-bit value. *)
Theorem loaded_graph_wf (path : string) (lines : list string)
    (loaded : GraphLoadResult) :
  extract_typed extract →
  read_graph_from_file extract path (Some lines) = Ok loaded →
  wf_graph (graph loaded) ∧
  ∀ u es e, zlookup (graph loaded) u = Some es → e ∈ es →
    0 ≤ weight e < 9223372036854775808.
Proof.
  intros Htyped Hread.
  assert (∀ u es e, zlookup (graph loaded) u = Some es → e ∈ es →
            0 ≤ weight e < 9223372036854775808) as Hw.
  { intros u es e Hu He.
    destruct (loaded_graph_edges path lines loaded u es e Hread Hu He)
      as (_ & Hw0 & l & f & Hl).
    by destruct (Htyped l f _ _ Hl) as (_ & _ & ?). }
  split; [|done]. intros u es e Hu He.
  destruct (loaded_graph_edges path lines loaded u es e Hread Hu He)
    as (Hto & _).
  specialize (Hw u es e Hu He). split; [done|].
  unfold is_uint64, two64. lia.
Qed.

(** The first line that is neither skipped nor well-formed makes the load
    fail, with a message that quotes the line: a line whose three numbers
    cannot be extracted, a negative node identifier, a negative weight.
    The lines after it are not looked at. *)
Theorem bad_line_rejected (path : string) (pre : list string) (line : string)
    (post : list string) (edges : list (Z * Z * Z)) (m : Z) :
  read_lines extract pre [] (-1) = Ok (edges, m) →
  skipped line = false →
  (extract line = None →
     read_graph_from_file extract path (Some (pre ++ line :: post))
     = Throw (runtime_error ("Invalid line in input file: " +:+ line))) ∧
  (∀ from to_ w, extract line = Some (from, to_, w) → from < 0 ∨ to_ < 0 →
     read_graph_from_file extract path (Some (pre ++ line :: post))
     = Throw (runtime_error ("Node ids must be non-negative: " +:+ line))) ∧
  (∀ from to_ w, extract line = Some (from, to_, w) →
     0 ≤ from → 0 ≤ to_ → w < 0 →
     read_graph_from_file extract path (Some (pre ++ line :: post))
     = Throw (runtime_error ("Edge weights must be non-negative: " +:+ line))).
Proof.
  intros Hpre Hskip. unfold read_graph_from_file.
  rewrite read_lines_app, Hpre. cbn [mbind outcome_bind].
  cbn [read_lines]. rewrite Hskip. split; [|split].
  - by intros ->.
  - intros from to_ w -> Hneg. by rewrite bool_decide_true.
  - intros from to_ w -> Hf Ht Hw.
    rewrite bool_decide_false by lia. by rewrite bool_decide_true.
Qed.
End LoadedGraph.

Lemma sample_extract_typed : extract_typed sample_extract.
Proof.
  intros line from to_ w. unfold sample_extract.
  repeat case_decide; intros [= <- <- <-] || intros [=]; lia.
Qed.

Lemma loaded_graph_adjacency_witness :
  zlookup (build_graph 3 [(0, 1, 4); (1, 2, 7)]) 1
  = Some (adjacency [(0, 1, 4); (1, 2, 7)] 1).
Proof.
  apply (loaded_graph_adjacency sample_extract "g" sample_lines
           {| graph := build_graph 3 [(0, 1, 4); (1, 2, 7)]; node_count := 3 |});
    [reflexivity | discriminate | simpl; lia].
Defined.

Lemma loaded_graph_wf_witness :
  wf_graph (build_graph 3 [(0, 1, 4); (1, 2, 7)]).
Proof.
  apply (loaded_graph_wf sample_extract "g" sample_lines
           {| graph := build_graph 3 [(0, 1, 4); (1, 2, 7)]; node_count := 3 |});
    [apply sample_extract_typed | reflexivity].
Defined.

Lemma bad_line_rejected_witness :
  read_graph_from_file sample_extract "g"
    (Some (["# sample"; "0 1 4"] ++ "1 2 -7" :: ["0 1 4"]))
  = Throw (runtime_error ("Edge weights must be non-negative: " +:+ "1 2 -7")).
Proof.
  destruct (bad_line_rejected sample_extract "g" ["# sample"; "0 1 4"] "1 2 -7"
              ["0 1 4"] [(0, 1, 4)] 1 eq_refl eq_refl) as (_ & _ & Hw).
  apply (Hw 1 2 (-7)); [reflexivity | lia | lia | lia].
Defined.

(** ** The driver *)

Lemma time_algorithm_loop_rest fn r : ∀ i dist,
  time_algorithm_loop fn (S i) r dist
  = match r with O => Ok dist | S _ => (λ _, dist) <$> fn end.
Proof.
  induction r as [|r IH]; intros i dist; [done|].
  simpl. destruct fn as [c| | |] eqn:Hfn; try done.
  cbn [mbind outcome_bind]. rewrite IH. by destruct r.
Qed.

Lemma time_algorithm_loop_first (fn : outcome (list Z)) (r : nat) :
  time_algorithm_loop fn 0 (S r) [] = fn.
Proof.
  simpl. destruct fn as [c| | |] eqn:Hfn; try done.
  cbn [mbind outcome_bind]. rewrite time_algorithm_loop_rest. by destruct r.
Qed.

(** With at least one run, [time_algorithm] hands back what the algorithm
    returns on the graph and the source, the distances of its first run,
    and it throws what the algorithm throws. *)
Theorem time_algorithm_first_run (g : Graph) (s : Z)
    (fn : Graph → Z → outcome (list Z)) (runs : Z) :
  1 ≤ runs → time_algorithm g s fn runs = fn g s.
Proof.
  intros Hruns. unfold time_algorithm.
  destruct (Z.to_nat runs) as [|r] eqn:Hr; [lia|].
  apply time_algorithm_loop_first.
Qed.

Lemma time_algorithm_first_run_witness :
  time_algorithm scenario_A 0 (dijkstra 6) 5 = dijkstra 6 scenario_A 0.
Proof. apply time_algorithm_first_run. lia. Defined.

Lemma time_algorithm_runs (g : Graph) (s : Z)
    (fn : Graph → Z → outcome (list Z)) (runs : Z) :
  1 ≤ runs → time_algorithm g s fn runs = time_algorithm g s fn 1.
Proof.
  intros Hruns. unfold time_algorithm.
  destruct (Z.to_nat runs) as [|r] eqn:Hr; [lia|].
  change (Z.to_nat 1) with 1%nat. by rewrite !time_algorithm_loop_first.
Qed.

Lemma time_algorithm_once (g : Graph) (s : Z)
    (fn : Graph → Z → outcome (list Z)) :
  time_algorithm g s fn 1 = fn g s.
Proof. apply time_algorithm_loop_first. Qed.

Lemma verify_results_refl (a : list Z) : verify_results a a = Ok ().
Proof.
  unfold verify_results. rewrite bool_decide_false by (intros ?; done).
  apply verify_from_refl.
Qed.

Lemma main_try_runs extract fuel path file source runs :
  1 ≤ runs →
  main_try extract fuel path file source runs
  = main_try extract fuel path file source 1.
Proof.
  intros Hruns. unfold main_try.
  destruct (read_graph_from_file extract path file) as [loaded| | |]; try done.
  cbn [mbind outcome_bind]. repeat case_bool_decide; try done.
  by rewrite !(time_algorithm_runs _ _ _ runs) by lia.
Qed.

(** The verdict of the driver on a file that loads. When the edge weights
    sum to less than 2^64 and the fuel covers the runs, the exit status is
    0 exactly when the loaded graph is not empty and the source is one of
    its nodes: the two algorithms then agree and [verify_results] passes.
    Otherwise the status is 1. *)
Theorem main_exit_status (extract : string → option (Z * Z * Z))
    (fuel : nat) (path : string) (lines : list string)
    (loaded : GraphLoadResult) (source runs : Z) :
  extract_typed extract →
  read_graph_from_file extract path (Some lines) = Ok loaded →
  total_weight (graph loaded) < two64 →
  1 ≤ runs → (edge_count (graph loaded) + 2 ≤ fuel)%nat →
  (graph loaded ≠ [] ∧ 0 ≤ source < node_count loaded →
     main_try extract fuel path (Some lines) source runs = Ok () ∧
     main extract fuel path (Some lines) source runs = Ok 0) ∧
  (¬ (graph loaded ≠ [] ∧ 0 ≤ source < node_count loaded) →
     main extract fuel path (Some lines) source runs = Ok 1).
Proof.
  intros Htyped Hread Hbound Hruns Hfuel.
  assert (∀ P Q : Prop, P ∧ (P → Q) → P ∧ Q) as Hand by tauto.
  unfold main, main_try. rewrite Hread. cbn [mbind outcome_bind]. split.
  - intros [Hne Hs]. rewrite bool_decide_false by done.
    rewrite bool_decide_false by lia.
    rewrite !(time_algorithm_runs _ _ _ runs), !time_algorithm_once by done.
    assert (wf_graph (graph loaded)) as Hwf.
    { intros u es e Hu He.
      destruct (loaded_graph_edges extract path lines loaded u es e Hread Hu He)
        as (Hto & Hw0 & l & f & Hl).
      destruct (Htyped l f _ _ Hl) as (_ & _ & ?).
      split; [done|]. unfold is_uint64, two64. lia. }
    assert (valid_source (graph loaded) source) as Hvs.
    { destruct (read_graph_unfold extract path lines loaded Hread Hne)
        as (m & Hm & _ & ->).
      unfold valid_source. cbn [graph node_count] in *.
      rewrite build_graph_length. lia. }
    destruct (sssp_run_spec (Q:=BinaryHeap.t) _ source Hwf Hbound fuel Hvs Hfuel)
      as (st1 & Hr1 & Hd1 & _).
    destruct (sssp_run_spec (Q:=RadixHeap.t) _ source Hwf Hbound fuel Hvs Hfuel)
      as (st2 & Hr2 & Hd2 & _).
    unfold dijkstra, breaking_sorting_barrier_sssp. rewrite Hr1, Hr2.
    cbn [fmap outcome_fmap mbind outcome_bind].
    rewrite (shortest_distances_unique _ _ _ _ Hwf Hd1 Hd2).
    by rewrite verify_results_refl.
  - intros Hnot. case_bool_decide as Hnil; [done|].
    case_bool_decide as Hs; [done|]. destruct Hnot. split; [done | lia].
Qed.

Lemma main_exit_status_witness :
  main sample_extract 4 "g" (Some sample_lines) 0 3 = Ok 0.
Proof.
  apply (main_exit_status sample_extract 4 "g" sample_lines
           {| graph := build_graph 3 [(0, 1, 4); (1, 2, 7)]; node_count := 3 |}
           0 3).
  - apply sample_extract_typed.
  - reflexivity.
  - reflexivity.
  - lia.
  - simpl. lia.
  - split; [discriminate | simpl; lia].
Defined.

(** The command line. With fewer than three arguments [main] returns 1
    and opens no file. The repetition count does not change the result:
    whatever number the optional fourth argument holds, the result is the
    one obtained without it. *)
Theorem main_argv_runs (stoi : string → outcome Z)
    (extract : string → option (Z * Z * Z))
    (open_file : string → option (list string)) (fuel : nat) :
  (∀ argv, (length argv < 3)%nat →
     main_argv stoi extract open_file fuel argv = Ok 1) ∧
  (∀ exe input_path source_arg runs_arg rest r,
     stoi runs_arg = Ok r →
     main_argv stoi extract open_file fuel
       (exe :: input_path :: source_arg :: runs_arg :: rest)
     = main_argv stoi extract open_file fuel [exe; input_path; source_arg]).
Proof.
  split.
  - intros [|? [|? [|? ?]]] Hlen; simpl in *; done || lia.
  - intros exe input_path source_arg runs_arg rest r Hr. simpl.
    destruct (stoi source_arg) as [source| | |]; try done.
    rewrite Hr. cbn [mbind outcome_bind]. unfold main.
    by rewrite (main_try_runs _ _ _ _ _ (1 `max` r)) by lia.
Qed.

Lemma main_argv_runs_witness :
  main_argv sample_stoi sample_extract (λ _, Some sample_lines) 4
    ["sssp"; "g"; "0"; "5"]
  = main_argv sample_stoi sample_extract (λ _, Some sample_lines) 4
      ["sssp"; "g"; "0"].
Proof.
  apply (main_argv_runs sample_stoi sample_extract (λ _, Some sample_lines) 4)
    with (r := 5).
  reflexivity.
Defined.
